(** * Lattice documentation generator: a Rocq model of [scripts/generate_docs.py]

    The script scans [*.c] files for [///] doc-comment blocks, groups the
    entries by category and renders one static HTML page.  This file embeds
    the functions of the script as Rocq functions and proves the properties
    its specification states about them.

    Text is modelled as a list of 8-bit characters (code points 0..255); the
    character classes of Python ([str.isspace], the regex classes [\s] and
    [\w], [str.lower]) are written out for that range. *)

From Stdlib Require Import String Ascii List Bool Arith PeanoNat NArith Lia.
From Stdlib Require Import Permutation Sorted DecimalString.
Import ListNotations.

Open Scope string_scope.
Open Scope list_scope.
Open Scope nat_scope.

Set Implicit Arguments.

(** ** Python strings *)

Definition str := list ascii.

Coercion list_ascii_of_string : string >-> list.

(** The double quote and the line feed, which a literal cannot hold. *)
Definition dq : str := [ascii_of_nat 34].
Definition nl : str := [ascii_of_nat 10].

Definition code (c : ascii) : nat := nat_of_ascii c.

Definition in_range (lo hi : nat) (c : ascii) : bool :=
  (lo <=? code c) && (code c <=? hi).

(** [str.isspace] of one character, which is also the regex class [\s]. *)
Definition is_space (c : ascii) : bool :=
  in_range 9 13 c || in_range 28 32 c || (code c =? 133) || (code c =? 160).

Definition is_digit (c : ascii) : bool := in_range 48 57 c.
Definition is_upper_az (c : ascii) : bool := in_range 65 90 c.
Definition is_lower_az (c : ascii) : bool := in_range 97 122 c.

(** The regex class [\w] (Unicode alphanumerics and the underscore). *)
Definition is_word (c : ascii) : bool :=
  is_digit c || is_upper_az c || is_lower_az c || (code c =? 95)
  || (code c =? 170) || in_range 178 179 c || (code c =? 181)
  || in_range 185 186 c || in_range 188 190 c
  || in_range 192 214 c || in_range 216 246 c || in_range 248 255 c.

(** [str.lower] of one character. *)
Definition lower_char (c : ascii) : ascii :=
  if is_upper_az c || in_range 192 214 c || in_range 216 222 c
  then ascii_of_nat (code c + 32) else c.

Definition lower (s : str) : str := map lower_char s.

Definition str_eqb (a b : str) : bool :=
  if list_eq_dec ascii_dec a b then true else false.

Fixpoint dropwhile (p : ascii -> bool) (s : str) : str :=
  match s with
  | [] => []
  | c :: s' => if p c then dropwhile p s' else s
  end.

Definition lstrip_by (p : ascii -> bool) (s : str) : str := dropwhile p s.
Definition rstrip_by (p : ascii -> bool) (s : str) : str :=
  rev (dropwhile p (rev s)).
Definition strip_by (p : ascii -> bool) (s : str) : str :=
  lstrip_by p (rstrip_by p s).

(** [s.strip()] *)
Definition strip (s : str) : str := strip_by is_space s.

(** [s.strip(chars)] *)
Definition strip_chars (chars s : str) : str :=
  strip_by (fun c => existsb (Ascii.eqb c) chars) s.

(** [s.startswith(p)] *)
Fixpoint startswith (p s : str) : bool :=
  match p, s with
  | [], _ => true
  | a :: p', b :: s' => Ascii.eqb a b && startswith p' s'
  | _ :: _, [] => false
  end.

(** [sub in s] *)
Fixpoint contains (sub s : str) : bool :=
  startswith sub s || match s with [] => false | _ :: s' => contains sub s' end.

(** [s.find(sub)]: the index of the first occurrence, [None] for Python's -1. *)
Fixpoint find (sub s : str) : option nat :=
  if startswith sub s then Some 0
  else match s with
       | [] => None
       | _ :: s' => option_map S (find sub s')
       end.

(** [s.replace(old, new)] for a non-empty [old]: the occurrences are replaced
    from left to right and do not overlap; [skip] counts the characters of
    the occurrence just replaced that are still to be passed over. *)
Fixpoint replace_from (old new : str) (skip : nat) (s : str) : str :=
  match s with
  | [] => []
  | c :: s' =>
      match skip with
      | S k => replace_from old new k s'
      | O => if startswith old s
             then new ++ replace_from old new (length old - 1) s'
             else c :: replace_from old new 0 s'
      end
  end.

Definition replace (old new s : str) : str := replace_from old new 0 s.

(** [s.split(sep)] for a one-character separator. *)
Fixpoint split (sep : ascii) (s : str) : list str :=
  match s with
  | [] => [[]]
  | c :: s' =>
      if Ascii.eqb c sep then [] :: split sep s'
      else match split sep s' with
           | [] => [[c]]
           | w :: ws => (c :: w) :: ws
           end
  end.

(** [sep.join(parts)] *)
Fixpoint join (sep : str) (parts : list str) : str :=
  match parts with
  | [] => []
  | [p] => p
  | p :: ps => p ++ sep ++ join sep ps
  end.

(** [str(n)] for a non-negative integer. *)
Definition str_of_nat (n : nat) : str :=
  list_ascii_of_string (NilEmpty.string_of_uint (Nat.to_uint n)).

(** ** The anchor generator *)

(** The characters the pattern [[^a-zA-Z0-9_-]] does not match. *)
Definition anchor_keep (c : ascii) : bool :=
  is_lower_az c || is_upper_az c || is_digit c
  || Ascii.eqb c "_" || Ascii.eqb c "-".

(** [re.sub(r'[^a-zA-Z0-9_-]', '-', name)] *)
Definition sub_non_anchor (name : str) : str :=
  map (fun c => if anchor_keep c then c else "-"%char) name.

Definition make_anchor (name : str) : str :=
  strip_chars "-" (lower (sub_non_anchor name)).

(** The class [[a-z0-9_-]] of the output. *)
Definition anchor_char (c : ascii) : bool :=
  is_lower_az c || is_digit c || Ascii.eqb c "_" || Ascii.eqb c "-".

(** The first and the last character of a text. *)
Definition first_char (s : str) : option ascii := hd_error s.
Definition last_char (s : str) : option ascii := hd_error (rev s).

(** ** The doc-comment parser *)

Record DocEntry := mkDocEntry {
  kind : str;          (* "builtin" or "method" *)
  signature : str;
  name : str;
  category : str;
  description : str;
  examples : list str
}.

Definition set_category (e : DocEntry) (c : str) : DocEntry :=
  mkDocEntry (kind e) (signature e) (name e) c (description e) (examples e).

Definition add_example (e : DocEntry) (x : str) : DocEntry :=
  mkDocEntry (kind e) (signature e) (name e) (category e) (description e)
             (examples e ++ [x]).

Definition set_description (e : DocEntry) (d : str) : DocEntry :=
  mkDocEntry (kind e) (signature e) (name e) (category e) d (examples e).

(** Python's truth value of a string and of a list. *)
Definition truthy {A} (l : list A) : bool :=
  match l with [] => false | _ :: _ => true end.

(** The test that opens a block, on a stripped line. *)
Definition is_block_start (line : str) : bool :=
  startswith "///" line && (contains "@builtin" line || contains "@method" line).

(** The entry as it stands after the tag line: kind, signature and name. *)
Definition start_entry (line : str) : DocEntry :=
  let content := strip (skipn 3 line) in
  let ks :=
    if contains "@builtin" content
    then (list_ascii_of_string "builtin", strip (replace "@builtin" "" content))
    else if contains "@method" content
    then (list_ascii_of_string "method", strip (replace "@method" "" content))
    else ([], []) in
  let sig := snd ks in
  let nm := match find "(" sig with
            | Some paren_idx => strip (firstn paren_idx sig)
            | None => strip sig
            end in
  mkDocEntry (fst ks) sig nm [] [] [].

(** One line of the body of a block: the entry and the description lines
    collected so far, updated with the payload [content] of the line. *)
Definition block_line (content : str) (e : DocEntry) (desc_lines : list str)
  : DocEntry * list str :=
  if startswith "@category" content
  then (set_category e (strip (replace "@category" "" content)), desc_lines)
  else if startswith "@example" content
  then (add_example e (strip (replace "@example" "" content)), desc_lines)
  else if truthy content then (e, desc_lines ++ [content])
  else (e, desc_lines).

Definition finish_entry (e : DocEntry) (desc_lines : list str) : DocEntry :=
  set_description e (join " " desc_lines).

(** The two loops of [parse_doc_blocks] over [lines[i:]].  The inner loop
    stops at the first line that does not carry the marker and leaves it to
    the outer loop. *)
Fixpoint parse_lines (lines : list str) : list DocEntry :=
  match lines with
  | [] => []
  | l :: rest =>
      let line := strip l in
      if is_block_start line then
        (fix block (e : DocEntry) (desc_lines : list str) (ls : list str)
             {struct ls} : list DocEntry :=
           match ls with
           | [] => [finish_entry e desc_lines]
           | l' :: ls' =>
               let next_line := strip l' in
               if negb (startswith "///" next_line)
               then finish_entry e desc_lines :: parse_lines ls
               else let st := block_line (strip (skipn 3 next_line)) e desc_lines in
                    block (fst st) (snd st) ls'
           end) (start_entry line) [] rest
      else parse_lines rest
  end.

Definition parse_doc_blocks (source_text : str) : list DocEntry :=
  parse_lines (split "010" source_text).

(** ** The source scanner *)

(** An entry of a directory: a file, whose text can be read or not, or a
    sub-directory with entries of its own. *)
#[local] Unset Elimination Schemes.
Inductive node :=
| File (filename : str) (text : option str)
| Folder (filename : str) (children : list node).
#[local] Set Elimination Schemes.

Definition node_name (n : node) : str :=
  match n with
  | File f _ => f
  | Folder f _ => f
  end.

(** A directory as the system lists it, in the order it chooses. *)
Definition directory := list node.

(** [s.endswith(p)] *)
Definition endswith (p s : str) : bool := startswith (rev p) (rev s).

(** [src_path.glob("*.c")]: the entries of the directory itself whose name
    ends in [.c]. *)
Definition glob_c (d : directory) : directory :=
  filter (fun f => endswith ".c" (node_name f)) d.

(** The order of Python strings: by code point, a proper prefix first. *)
Fixpoint str_ltb (a b : str) : bool :=
  match a, b with
  | _, [] => false
  | [], _ :: _ => true
  | x :: a', y :: b' =>
      (code x <? code y) || ((code x =? code y) && str_ltb a' b')
  end.

(** [sorted] of paths of one directory: a stable sort by name. *)
Fixpoint insert_path (f : node) (l : directory) : directory :=
  match l with
  | [] => [f]
  | g :: l' => if str_ltb (node_name g) (node_name f) then g :: insert_path f l'
               else f :: l
  end.

Definition sorted (d : directory) : directory := fold_right insert_path [] d.

(** [c_file.read_text(encoding="utf-8", errors="replace")]: [None] when the
    call raises (an unreadable file, a directory). *)
Definition read_text (n : node) : option str :=
  match n with
  | File _ text => text
  | Folder _ _ => None
  end.

(** [scan_source_files]; [None] is a path that does not exist.  The warnings
    written to the error stream are left out. *)
Definition scan_source_files (src_dir : option directory) : list DocEntry :=
  match src_dir with
  | None => []
  | Some d =>
      fold_left
        (fun entries c_file =>
           match read_text c_file with
           | Some text => entries ++ parse_doc_blocks text
           | None => entries
           end)
        (sorted (glob_c d)) []
  end.

(** ** The taxonomy and the categorizer *)

(** An [OrderedDict] with string keys: the items in insertion order, each key
    once. *)
Definition odict (V : Type) := list (str * V).

Fixpoint od_get {V} (k : str) (d : odict V) : option V :=
  match d with
  | [] => None
  | (k', v) :: d' => if str_eqb k k' then Some v else od_get k d'
  end.

(** [k in d] *)
Definition od_mem {V} (k : str) (d : odict V) : bool :=
  match od_get k d with Some _ => true | None => false end.

(** [d[k] = v]: the value of a present key is replaced in place, a new key
    goes to the end. *)
Fixpoint od_set {V} (k : str) (v : V) (d : odict V) : odict V :=
  match d with
  | [] => [(k, v)]
  | (k', v') :: d' => if str_eqb k k' then (k', v) :: d'
                      else (k', v') :: od_set k v d'
  end.

Definition od_keys {V} (d : odict V) : list str := map fst d.
Definition od_values {V} (d : odict V) : list V := map snd d.

Definition SECTION_GROUPS : odict (list str) :=
  [ (list_ascii_of_string "Language",
      [ list_ascii_of_string "Core";
        list_ascii_of_string "Phase Transitions";
        list_ascii_of_string "Type Constructors";
        list_ascii_of_string "Type Conversion";
        list_ascii_of_string "Error Handling" ]);
    (list_ascii_of_string "Standard Library",
      [ list_ascii_of_string "Math";
        list_ascii_of_string "String Formatting";
        list_ascii_of_string "Regex";
        list_ascii_of_string "JSON";
        list_ascii_of_string "CSV";
        list_ascii_of_string "URL";
        list_ascii_of_string "Functional";
        list_ascii_of_string "Metaprogramming" ]);
    (list_ascii_of_string "System",
      [ list_ascii_of_string "File System";
        list_ascii_of_string "Path";
        list_ascii_of_string "Environment";
        list_ascii_of_string "Process";
        list_ascii_of_string "Date & Time";
        list_ascii_of_string "Crypto";
        list_ascii_of_string "Networking" ]);
    (list_ascii_of_string "Type Methods",
      [ list_ascii_of_string "String Methods";
        list_ascii_of_string "Array Methods";
        list_ascii_of_string "Map Methods";
        list_ascii_of_string "Channel Methods" ]) ].

(** The flat order of all categories. *)
Definition CATEGORY_ORDER : list str :=
  fold_left (fun acc cats => acc ++ cats) (od_values SECTION_GROUPS) [].

(** The key an entry is grouped under. *)
Definition category_key (entry : DocEntry) : str :=
  if truthy (category entry) then category entry else "Core".

(** [groups[cat].append(entry)] *)
Definition od_append {V} (k : str) (x : V) (d : odict (list V)) : odict (list V) :=
  match od_get k d with
  | Some l => od_set k (l ++ [x]) d
  | None => d
  end.

Definition place_entry (groups : odict (list DocEntry)) (entry : DocEntry)
  : odict (list DocEntry) :=
  let cat := category_key entry in
  let groups' := if od_mem cat groups then groups else od_set cat [] groups in
  od_append cat entry groups'.

Definition group_by_category (entries : list DocEntry) : odict (list DocEntry) :=
  let groups := fold_left (fun g cat => od_set cat [] g) CATEGORY_ORDER [] in
  let groups := fold_left place_entry entries groups in
  filter (fun kv => truthy (snd kv)) groups.

(** ** HTML text *)

(** [html.escape(text, quote=True)], character by character. *)
Definition escape_char (c : ascii) : str :=
  if Ascii.eqb c "&" then "&amp;"
  else if Ascii.eqb c "<" then "&lt;"
  else if Ascii.eqb c ">" then "&gt;"
  else if Ascii.eqb c (ascii_of_nat 34) then "&quot;"
  else if Ascii.eqb c "'" then "&#x27;"
  else [c].

Definition escape (text : str) : str := flat_map escape_char text.

(** A piece of a formatted string: the literal text of the format, or the
    value of an interpolated expression.  A formatted string is the list of
    its pieces, and the text it denotes is their concatenation. *)
Inductive piece :=
| Lit (s : str)
| Val (s : str).

Definition markup := list piece.

Definition piece_text (p : piece) : str :=
  match p with
  | Lit s => s
  | Val s => s
  end.

Definition text_of (m : markup) : str := flat_map piece_text m.

(** [sep.join(parts)] on formatted strings. *)
Fixpoint join_markup (sep : markup) (parts : list markup) : markup :=
  match parts with
  | [] => []
  | [p] => p
  | p :: ps => p ++ sep ++ join_markup sep ps
  end.

(** ** Regular expressions

    A backtracking matcher in the manner of Python's [re]: alternatives are
    tried in priority order and the first complete match wins.  Repetition is
    of character classes only, which is all the script's pattern uses. *)

Inductive regex :=
| Eps
| Chr (c : ascii)
| Class (p : ascii -> bool)
| Seq (a b : regex)
| Star (greedy : bool) (p : ascii -> bool)
| Opt (a : regex)
| Group (n : nat) (a : regex)
| Bos
| Eos.

Declare Scope regex_scope.
Delimit Scope regex_scope with re.
Bind Scope regex_scope with regex.
Notation "a ;; b" := (Seq a b) (at level 60, right associativity) : regex_scope.

(** The text of each group that took part in the match. *)
Definition captures := list (nat * str).

Fixpoint group (g : captures) (n : nat) : option str :=
  match g with
  | [] => None
  | (m, s) :: g' => if m =? n then Some s else group g' n
  end.

Section Matcher.
Variable A : Type.

(** [p*]: as many characters as possible first. *)
Fixpoint star_greedy (p : ascii -> bool) (i : nat) (s : str)
         (k : nat -> str -> option A) : option A :=
  match s with
  | c :: s' =>
      if p c then
        match star_greedy p (S i) s' k with
        | Some r => Some r
        | None => k i s
        end
      else k i s
  | [] => k i s
  end.

(** [p*?]: as few characters as possible first. *)
Fixpoint star_lazy (p : ascii -> bool) (i : nat) (s : str)
         (k : nat -> str -> option A) : option A :=
  match k i s with
  | Some r => Some r
  | None =>
      match s with
      | c :: s' => if p c then star_lazy p (S i) s' k else None
      | [] => None
      end
  end.
End Matcher.

(** [run r i s g k]: match [r] at position [i], where [s] is the rest of the
    subject, and go on with [k]; [None] makes the matcher backtrack. *)
Fixpoint run (r : regex) (i : nat) (s : str) (g : captures)
         (k : nat -> str -> captures -> option captures) : option captures :=
  match r with
  | Eps => k i s g
  | Chr c =>
      match s with
      | c' :: s' => if Ascii.eqb c c' then k (S i) s' g else None
      | [] => None
      end
  | Class p =>
      match s with
      | c' :: s' => if p c' then k (S i) s' g else None
      | [] => None
      end
  | Seq a b => run a i s g (fun i' s' g' => run b i' s' g' k)
  | Star greedy p =>
      (if greedy then @star_greedy captures else @star_lazy captures)
        p i s (fun i' s' => k i' s' g)
  | Opt a =>
      match run a i s g k with
      | Some r => Some r
      | None => k i s g
      end
  | Group n a => run a i s g (fun i' s' g' => k i' s' ((n, firstn (i' - i) s) :: g'))
  | Bos => if i =? 0 then k i s g else None
  | Eos =>
      match s with
      | [] => k i s g
      | [c] => if Ascii.eqb c "010" then k i s g else None
      | _ => None
      end
  end.

(** [re.match(r, s)] *)
Definition re_match (r : regex) (s : str) : option captures :=
  run r 0 s [] (fun _ _ g => Some g).

(** ** The signature tokenizer *)

(** The class [[\w:.]]. *)
Definition is_name_char (c : ascii) : bool :=
  is_word c || Ascii.eqb c ":" || Ascii.eqb c ".".

(** The dot under [re.DOTALL]. *)
Definition any_char (c : ascii) : bool := true.

(** [^([\w:.]+)\s*\((.*?)\)\s*(->\s*(.+))?$] *)
Definition signature_regex : regex :=
  (Bos ;;
   Group 1 (Class is_name_char ;; Star true is_name_char) ;;
   Star true is_space ;;
   Chr "(" ;;
   Group 2 (Star false any_char) ;;
   Chr ")" ;;
   Star true is_space ;;
   Opt (Group 3 (Chr "-" ;; Chr ">" ;; Star true is_space ;;
                 Group 4 (Class any_char ;; Star true any_char))) ;;
   Eos)%re.

(** [m.group(n) or ""] *)
Definition group_or_empty (g : captures) (n : nat) : str :=
  match group g n with
  | Some s => s
  | None => []
  end.

Definition format_param (param : str) : markup :=
  match find ":" param with
  | Some colon_idx =>
      let pname := strip (firstn colon_idx param) in
      let ptype := strip (skipn (colon_idx + 1) param) in
      [ Lit ("<span class=" ++ dq ++ "text" ++ dq ++ ">"); Val (escape pname);
        Lit "</span>";
        Lit ("<span class=" ++ dq ++ "op" ++ dq ++ ">:</span> ");
        Lit ("<span class=" ++ dq ++ "typ" ++ dq ++ ">"); Val (escape ptype);
        Lit "</span>" ]
  | None =>
      [ Lit ("<span class=" ++ dq ++ "text" ++ dq ++ ">"); Val (escape param);
        Lit "</span>" ]
  end.

(** The single token of a signature that does not match the pattern. *)
Definition verbatim_token (sig : str) : markup :=
  [ Lit ("<span class=" ++ dq ++ "fn" ++ dq ++ ">"); Val (escape sig);
    Lit "</span>" ].

Definition format_signature_html (sig : str) : markup :=
  match re_match signature_regex sig with
  | None => verbatim_token sig
  | Some m =>
      let name := group_or_empty m 1 in
      let params_raw := group_or_empty m 2 in
      let ret_type := group_or_empty m 4 in
      [ Lit ("<span class=" ++ dq ++ "fn" ++ dq ++ ">"); Val (escape name);
        Lit "</span>" ]
      ++ [ Lit ("<span class=" ++ dq ++ "text" ++ dq ++ ">(</span>") ]
      ++ (if truthy (strip params_raw)
          then join_markup
                 [ Lit ("<span class=" ++ dq ++ "op" ++ dq ++ ">, </span>") ]
                 (map (fun p => format_param (strip p)) (split "," params_raw))
          else [])
      ++ [ Lit ("<span class=" ++ dq ++ "text" ++ dq ++ ">)</span>") ]
      ++ (if truthy (strip ret_type)
          then [ Lit (" <span class=" ++ dq ++ "op" ++ dq
                      ++ ">-&gt;</span> <span class=" ++ dq ++ "typ" ++ dq ++ ">");
                 Val (escape (strip ret_type)); Lit "</span>" ]
          else [])
  end.

Definition format_example_html (example : str) : markup :=
  match find "//" example with
  | Some comment_idx =>
      [ Val (escape (firstn comment_idx example));
        Lit ("<span class=" ++ dq ++ "cmt" ++ dq ++ ">");
        Val (escape (skipn comment_idx example)); Lit "</span>" ]
  | None => [ Val (escape example) ]
  end.

(** ** The site renderer *)

(** [[c for c in categories if c in groups]] *)
Definition active_cats (groups : odict (list DocEntry)) (categories : list str)
  : list str :=
  filter (fun c => od_mem c groups) categories.

(** [groups[cat]], for a category that is present. *)
Definition entries_of (groups : odict (list DocEntry)) (cat : str) : list DocEntry :=
  match od_get cat groups with
  | Some l => l
  | None => []
  end.

Definition sidebar_link (groups : odict (list DocEntry)) (cat : str) : markup :=
  let anchor := make_anchor cat in
  let count := length (entries_of groups cat) in
  [ Lit ("        <a href=" ++ dq ++ "#"); Val anchor;
    Lit (dq ++ " class=" ++ dq ++ "sidebar-link" ++ dq ++ " data-cat=" ++ dq);
    Val anchor; Lit (dq ++ ">"); Val (escape cat);
    Lit ("<span class=" ++ dq ++ "sidebar-count" ++ dq ++ ">");
    Val (str_of_nat count); Lit ("</span></a>" ++ nl) ].

Definition sidebar_section (groups : odict (list DocEntry))
           (section : str * list str) : markup :=
  let active := active_cats groups (snd section) in
  if negb (truthy active) then []
  else [ Lit ("      <div class=" ++ dq ++ "sidebar-section" ++ dq ++ ">" ++ nl);
         Lit ("        <div class=" ++ dq ++ "sidebar-heading" ++ dq ++ ">");
         Val (escape (fst section)); Lit ("</div>" ++ nl) ]
       ++ flat_map (sidebar_link groups) active
       ++ [ Lit ("      </div>" ++ nl) ].

(** The sidebar built by the first loop over the sections. *)
Definition sidebar_walk (groups : odict (list DocEntry)) : markup :=
  flat_map (sidebar_section groups) SECTION_GROUPS.

Definition example_block (ex : str) : markup :=
  [ Lit "          <pre><code>" ] ++ format_example_html ex
  ++ [ Lit ("</code></pre>" ++ nl) ].

Definition entry_card (entry : DocEntry) : markup :=
  let entry_anchor := make_anchor ("fn-" ++ name entry) in
  let sig_html := format_signature_html (signature entry) in
  [ Lit ("      <div class=" ++ dq ++ "doc-entry" ++ dq ++ " id=" ++ dq);
    Val entry_anchor; Lit (dq ++ " data-name=" ++ dq);
    Val (escape (lower (name entry))); Lit (dq ++ " data-desc=" ++ dq);
    Val (escape (lower (description entry))); Lit (dq ++ ">" ++ nl) ]
  ++ [ Lit ("        <div class=" ++ dq ++ "doc-sig" ++ dq ++ ">") ] ++ sig_html
  ++ [ Lit ("</div>" ++ nl) ]
  ++ (if truthy (description entry)
      then [ Lit ("        <p class=" ++ dq ++ "doc-desc" ++ dq ++ ">");
             Val (escape (description entry)); Lit ("</p>" ++ nl) ]
      else [])
  ++ (if truthy (examples entry)
      then [ Lit ("        <div class=" ++ dq ++ "doc-examples" ++ dq ++ ">" ++ nl) ]
           ++ flat_map example_block (examples entry)
           ++ [ Lit ("        </div>" ++ nl) ]
      else [])
  ++ [ Lit ("      </div>" ++ nl) ].

Definition category_block (groups : odict (list DocEntry)) (section_name cat : str)
  : markup :=
  let anchor := make_anchor cat in
  let entries := entries_of groups cat in
  [ Lit ("    <div class=" ++ dq ++ "doc-category" ++ dq ++ " id=" ++ dq);
    Val anchor; Lit (dq ++ ">" ++ nl);
    Lit ("      <div class=" ++ dq ++ "section-label" ++ dq ++ ">");
    Val (escape section_name); Lit ("</div>" ++ nl);
    Lit ("      <h2 class=" ++ dq ++ "section-title" ++ dq ++ ">");
    Val (escape cat); Lit ("</h2>" ++ nl) ]
  ++ flat_map entry_card entries
  ++ [ Lit ("    </div>" ++ nl) ].

Definition content_section (groups : odict (list DocEntry))
           (section : str * list str) : markup :=
  let active := active_cats groups (snd section) in
  if negb (truthy active) then []
  else flat_map (category_block groups (fst section)) active.

(** The content built by the second loop over the sections. *)
Definition content_walk (groups : odict (list DocEntry)) : markup :=
  flat_map (content_section groups) SECTION_GROUPS.

(** The placeholder of a page without entries. *)
Definition empty_state : str :=
  "    <div class=" ++ dq ++ "doc-empty" ++ dq ++ ">" ++ nl
  ++ "      <div class=" ++ dq ++ "doc-empty-icon" ++ dq ++ ">&#x25C7;</div>" ++ nl
  ++ "      <h2>No Documentation Yet</h2>" ++ nl
  ++ "      <p>Add <code>/// @builtin</code> or <code>/// @method</code> doc comments to C source files to generate documentation.</p>" ++ nl
  ++ "      <div class=" ++ dq ++ "doc-empty-example" ++ dq ++ ">" ++ nl
  ++ "        <pre><code><span class=" ++ dq ++ "cmt" ++ dq ++ ">/// @builtin print(value: Any) -> Unit</span>" ++ nl
  ++ "<span class=" ++ dq ++ "cmt" ++ dq ++ ">/// @category Core</span>" ++ nl
  ++ "<span class=" ++ dq ++ "cmt" ++ dq ++ ">/// Prints a value to stdout followed by a newline.</span>" ++ nl
  ++ "<span class=" ++ dq ++ "cmt" ++ dq ++ ">/// @example print(" ++ dq ++ "hello" ++ dq ++ ")  // hello</span>" ++ nl
  ++ "if (strcmp(fn_name, " ++ dq ++ "print" ++ dq ++ ") == 0) {</code></pre>" ++ nl
  ++ "      </div>" ++ nl
  ++ "    </div>" ++ nl.

Definition sidebar_empty : str :=
  "      <div class=" ++ dq ++ "sidebar-empty" ++ dq
  ++ ">Add doc comments to source files to see categories here.</div>" ++ nl.

Definition sidebar_html (groups : odict (list DocEntry)) : markup :=
  if negb (truthy groups) then [ Lit sidebar_empty ] else sidebar_walk groups.

Definition content_html (groups : odict (list DocEntry)) : markup :=
  if negb (truthy groups) then [ Lit empty_state ] else content_walk groups.

(** [sum(len(v) for v in groups.values())] and [len(groups)] *)
Definition total_entries (groups : odict (list DocEntry)) : nat :=
  fold_left (fun acc v => acc + length v) (od_values groups) 0.

Definition total_categories (groups : odict (list DocEntry)) : nat :=
  length groups.

(** The footer line of the statistics. *)
Definition stats_line (groups : odict (list DocEntry)) : markup :=
  [ Val (str_of_nat (total_entries groups)); Lit " functions across ";
    Val (str_of_nat (total_categories groups)); Lit " categories" ].

(** The fixed text of the page around its three computed parts: up to the
    sidebar, from the sidebar to the statistics, from the statistics to the
    content, and after the content. *)
Record template := mkTemplate {
  page_head : str;
  page_before_stats : str;
  page_after_stats : str;
  page_tail : str
}.

Definition full_html (T : template) (groups : odict (list DocEntry)) : markup :=
  [ Lit (page_head T) ] ++ sidebar_html groups
  ++ [ Lit (page_before_stats T) ] ++ stats_line groups
  ++ [ Lit (page_after_stats T) ] ++ content_html groups
  ++ [ Lit (page_tail T) ].

(** The result of a call that can end in an unhandled exception. *)
Inductive outcome (A : Type) :=
| Done (a : A)
| Fault.

Arguments Done {A} a.
Arguments Fault {A}.

(** What a run leaves behind: the text written to the output path and the
    pair of counts the renderer returns. *)
Record output := mkOutput {
  written : str;
  counts : nat * nat
}.

(** [generate_html]; [writable] tells whether the output directory can be
    made and the file opened for writing. *)
Definition generate_html (T : template) (groups : odict (list DocEntry))
           (writable : bool) : outcome output :=
  let doc := text_of (full_html T groups) in
  if writable
  then Done (mkOutput doc (total_entries groups, total_categories groups))
  else Fault.

(** [main]: scan, group, render.  The progress lines it prints are left
    out. *)
Definition main (T : template) (src_dir : option directory) (writable : bool)
  : outcome output :=
  let entries := scan_source_files src_dir in
  let groups := group_by_category entries in
  generate_html T groups writable.

(** * Vocabulary of the properties *)

(** The entries grouped under [k], in input order. *)
Definition entries_in (k : str) (entries : list DocEntry) : list DocEntry :=
  filter (fun e => str_eqb (category_key e) k) entries.

(** The inner loop of [parse_doc_blocks] on its own: the entries read from
    [ls] on, inside a block whose entry so far is [e]. *)
Fixpoint block_from (e : DocEntry) (desc_lines : list str) (ls : list str)
  : list DocEntry :=
  match ls with
  | [] => [finish_entry e desc_lines]
  | l' :: ls' =>
      let next_line := strip l' in
      if negb (startswith "///" next_line)
      then finish_entry e desc_lines :: parse_lines ls
      else let st := block_line (strip (skipn 3 next_line)) e desc_lines in
           block_from (fst st) (snd st) ls'
  end.

(** The block of the specification's example, line by line, and the entry
    it documents. *)
Definition example_block_lines : list str :=
  [ list_ascii_of_string "/// @builtin f(x: T) -> R";
    list_ascii_of_string "/// @category C";
    list_ascii_of_string "/// desc";
    list_ascii_of_string "/// @example f(1)  // ok" ].

Definition example_entry : DocEntry :=
  mkDocEntry "builtin" "f(x: T) -> R" "f" "C" "desc"
             [ list_ascii_of_string "f(1)  // ok" ].

(** A line that does not carry the marker and has no line feed in it. *)
Definition unmarked_line (l : str) : Prop :=
  startswith "///" (strip l) = false /\ ~ In "010"%char l.

(** ** The signature pattern, read off directly

    What the pattern matches, written as plain functions on the text: the
    name is the longest run of name characters, the parameters end at the
    first [)] whose remainder is an acceptable tail. *)

Fixpoint takewhile (p : ascii -> bool) (s : str) : str :=
  match s with
  | [] => []
  | c :: s' => if p c then c :: takewhile p s' else []
  end.

(** The arrow clause of a signature: the text of the clause and the return
    type in it; [None] when there is no arrow. *)
Definition arrow_clause := option (str * str).

(** The tail after the closing parenthesis: white space, then nothing or an
    arrow followed by at least one character.  The return type starts after
    the white space that follows the arrow, or is the last character when
    nothing but white space follows. *)
Definition tail_match (rest : str) : option arrow_clause :=
  let r := dropwhile is_space rest in
  match r with
  | [] => Some None
  | c1 :: c2 :: t =>
      if Ascii.eqb "-" c1 && Ascii.eqb ">" c2 then
        match dropwhile is_space t with
        | _ :: _ => Some (Some (r, dropwhile is_space t))
        | [] => match t with
                | [] => None
                | c :: t' => Some (Some (r, [last t' c]))
                end
        end
      else None
  | _ => None
  end.

(** The parameters and the tail: the split at the first [)] that is followed
    by an acceptable tail. *)
Fixpoint find_close (s : str) : option (str * arrow_clause) :=
  match s with
  | [] => None
  | c :: s' =>
      match (if Ascii.eqb ")" c then tail_match s' else None) with
      | Some t => Some ([], t)
      | None =>
          match find_close s' with
          | Some (params, t) => Some (c :: params, t)
          | None => None
          end
      end
  end.

(** Name, parameters and arrow clause of a signature that has the form. *)
Definition match_signature (s : str) : option (str * str * arrow_clause) :=
  match takewhile is_name_char s with
  | [] => None
  | nm =>
      match dropwhile is_space (dropwhile is_name_char s) with
      | c :: r =>
          if Ascii.eqb "(" c then
            match find_close r with
            | Some (params, t) => Some (nm, params, t)
            | None => None
            end
          else None
      | [] => None
      end
  end.

(** The groups of a match, latest first. *)
Definition arrow_captures (t : arrow_clause) (g : captures) : captures :=
  match t with
  | Some (arrow, ret) => (3, arrow) :: (4, ret) :: g
  | None => g
  end.

Definition captures_of (m : str * str * arrow_clause) : captures :=
  arrow_captures (snd m) [(2, snd (fst m)); (1, fst (fst m))].

(** The parts of the signature pattern, and the continuation that accepts. *)
Definition return_regex : regex := Group 4 (Class any_char ;; Star true any_char).

Definition arrow_regex : regex :=
  Group 3 (Chr "-" ;; Chr ">" ;; Star true is_space ;; return_regex).

Definition tail_regex : regex := (Star true is_space ;; Opt arrow_regex ;; Eos)%re.

Definition close_regex : regex :=
  (Group 2 (Star false any_char) ;; Chr ")" ;; tail_regex)%re.

Definition open_regex : regex := (Star true is_space ;; Chr "(" ;; close_regex)%re.

Definition accept (i : nat) (s : str) (g : captures) : option captures := Some g.

(** What may follow the closing parenthesis: white space, then nothing or
    an arrow and at least one more character. *)
Definition acceptable_tail (rest : str) : Prop :=
  exists ws, Forall (fun c => is_space c = true) ws
             /\ (rest = ws
                 \/ exists ret, ret <> [] /\ rest = ws ++ "->" ++ ret).

(** The form [name ( params ) tail] of a signature. *)
Definition has_form (sig : str) : Prop :=
  exists nm ws params rest,
    sig = nm ++ ws ++ "(" ++ params ++ ")" ++ rest
    /\ nm <> []
    /\ Forall (fun c => is_name_char c = true) nm
    /\ Forall (fun c => is_space c = true) ws
    /\ acceptable_tail rest.

(** The characters [html.escape] replaces. *)
Definition is_markup_char (c : ascii) : bool :=
  Ascii.eqb c "&" || Ascii.eqb c "<" || Ascii.eqb c ">"
  || Ascii.eqb c (ascii_of_nat 34) || Ascii.eqb c "'".








(** The entries a directory entry contributes: those of its text when it is
    a file that can be read. *)
Definition file_entries (f : node) : list DocEntry :=
  match f with
  | File _ (Some text) => parse_doc_blocks text
  | File _ None => []
  | Folder _ _ => []
  end.

(** The order of directory entries by name. *)
Definition name_le (a b : node) : Prop :=
  str_ltb (node_name b) (node_name a) = false.

(** A directory entry without what lies below it. *)
Definition prune (f : node) : node :=
  match f with
  | File n text => File n text
  | Folder n _ => Folder n []
  end.

(** ** Vocabulary of the further properties *)

(** The keys of [ks] that are not in [seen], each once, in the order of
    their first occurrence. *)
Fixpoint first_occurrences (seen ks : list str) : list str :=
  match ks with
  | [] => []
  | k :: ks' =>
      if existsb (str_eqb k) seen then first_occurrences seen ks'
      else k :: first_occurrences (seen ++ [k]) ks'
  end.

(** The literal that opens the card of an entry, and the number of cards in
    a formatted string. *)
Definition card_open : str :=
  "      <div class=" ++ dq ++ "doc-entry" ++ dq ++ " id=" ++ dq.

Definition is_card_open (p : piece) : bool :=
  match p with
  | Lit s => str_eqb s card_open
  | Val _ => false
  end.

Definition cards (m : markup) : nat := length (filter is_card_open m).

(** The literal that opens a link of the sidebar, and the number of links. *)
Definition link_open : str := "        <a href=" ++ dq ++ "#".

Definition is_link_open (p : piece) : bool :=
  match p with
  | Lit s => str_eqb s link_open
  | Val _ => false
  end.

Definition links (m : markup) : nat := length (filter is_link_open m).

(** A category of the taxonomy. *)
Definition declared (k : str) : bool := existsb (str_eqb k) CATEGORY_ORDER.

(** An entry as the parser leaves it: the kind is one of the two tags, the
    signature and the name have no white space at either end, and the name
    has no opening parenthesis in it. *)
Definition well_formed_entry (e : DocEntry) : Prop :=
  (kind e = list_ascii_of_string "builtin" \/ kind e = list_ascii_of_string "method")
  /\ strip (signature e) = signature e
  /\ strip (name e) = name e
  /\ ~ In "("%char (name e).

(** The payload of a marked line, and what the body of a block makes of the
    payloads of its lines. *)
Definition payload (l : str) : str := strip (skipn 3 (strip l)).

Definition is_category_line (c : str) : bool := startswith "@category" c.

Definition is_example_line (c : str) : bool :=
  negb (startswith "@category" c) && startswith "@example" c.

Definition is_text_line (c : str) : bool :=
  negb (startswith "@category" c) && negb (startswith "@example" c) && truthy c.

Definition last_category (default : str) (payloads : list str) : str :=
  match rev (filter is_category_line payloads) with
  | c :: _ => strip (replace "@category" "" c)
  | [] => default
  end.

Definition examples_of (payloads : list str) : list str :=
  map (fun c => strip (replace "@example" "" c)) (filter is_example_line payloads).

Definition text_of_lines (payloads : list str) : list str :=
  filter is_text_line payloads.

(** A line that carries the marker. *)
Definition marked_line (l : str) : Prop := startswith "///" (strip l) = true.

(** A directory entry whose text the scanner parses: a file that can be
    read and whose name ends in [.c]. *)
Definition readable_source (f : node) : bool :=
  endswith ".c" (node_name f)
  && match f with
     | File _ (Some _) => true
     | File _ None => false
     | Folder _ _ => false
     end.

(** The interpolated values of a formatted string, one after the other. *)
Definition values (m : markup) : str :=
  flat_map (fun p => match p with
                     | Val v => v
                     | Lit _ => []
                     end) m.

(** The literal between two parameters, and the number of them in a
    formatted string. *)
Definition param_sep : str := "<span class=" ++ dq ++ "op" ++ dq ++ ">, </span>".

Definition is_param_sep (p : piece) : bool :=
  match p with
  | Lit s => str_eqb s param_sep
  | Val _ => false
  end.

Definition separators (m : markup) : nat := length (filter is_param_sep m).

(** The pieces that open and close the block of a category in the content,
    and the section of the sidebar; the link of a category with the count
    it shows. *)
Definition block_open (section_name cat : str) : markup :=
  [ Lit ("    <div class=" ++ dq ++ "doc-category" ++ dq ++ " id=" ++ dq);
    Val (make_anchor cat); Lit (dq ++ ">" ++ nl);
    Lit ("      <div class=" ++ dq ++ "section-label" ++ dq ++ ">");
    Val (escape section_name); Lit ("</div>" ++ nl);
    Lit ("      <h2 class=" ++ dq ++ "section-title" ++ dq ++ ">");
    Val (escape cat); Lit ("</h2>" ++ nl) ].

Definition block_close : markup := [ Lit ("    </div>" ++ nl) ].

Definition section_open (section_name : str) : markup :=
  [ Lit ("      <div class=" ++ dq ++ "sidebar-section" ++ dq ++ ">" ++ nl);
    Lit ("        <div class=" ++ dq ++ "sidebar-heading" ++ dq ++ ">");
    Val (escape section_name); Lit ("</div>" ++ nl) ].

Definition section_close : markup := [ Lit ("      </div>" ++ nl) ].

Definition category_link (cat : str) (count : nat) : markup :=
  [ Lit ("        <a href=" ++ dq ++ "#"); Val (make_anchor cat);
    Lit (dq ++ " class=" ++ dq ++ "sidebar-link" ++ dq ++ " data-cat=" ++ dq);
    Val (make_anchor cat); Lit (dq ++ ">"); Val (escape cat);
    Lit ("<span class=" ++ dq ++ "sidebar-count" ++ dq ++ ">");
    Val (str_of_nat count); Lit ("</span></a>" ++ nl) ].

(** The categories of a list that hold an entry. *)
Definition holding (entries : list DocEntry) (cats : list str) : list str :=
  filter (fun c => truthy (entries_in c entries)) cats.

(** * Properties *)

(** ** Characters and stripping *)

Ltac each_char c :=
  destruct c as [[] [] [] [] [] [] [] []]; vm_compute; intros;
  try reflexivity; try congruence.

Lemma dropwhile_first (p : ascii -> bool) (s : str) (c : ascii) :
  first_char (dropwhile p s) = Some c -> p c = false.
Proof.
  induction s as [|a s IH]; simpl; [discriminate|].
  destruct (p a) eqn:E; [exact IH|].
  simpl. intros H. injection H as <-. exact E.
Qed.

Lemma dropwhile_suffix (p : ascii -> bool) (s : str) :
  exists a, s = a ++ dropwhile p s.
Proof.
  induction s as [|c s [a IH]]; simpl.
  - exists []. reflexivity.
  - destruct (p c).
    + exists (c :: a). simpl. f_equal. exact IH.
    + exists []. reflexivity.
Qed.

Lemma dropwhile_fixed (p : ascii -> bool) (s : str) :
  (forall c, first_char s = Some c -> p c = false) -> dropwhile p s = s.
Proof.
  destruct s as [|a s]; simpl; [reflexivity|].
  intros H. rewrite (H a eq_refl). reflexivity.
Qed.

Lemma dropwhile_Forall (P : ascii -> Prop) (p : ascii -> bool) (s : str) :
  Forall P s -> Forall P (dropwhile p s).
Proof.
  induction 1 as [|c s Hc Hs IH]; simpl; [constructor|].
  destruct (p c); [exact IH | constructor; assumption].
Qed.

Lemma strip_by_Forall (P : ascii -> Prop) (p : ascii -> bool) (s : str) :
  Forall P s -> Forall P (strip_by p s).
Proof.
  intros H. unfold strip_by, lstrip_by, rstrip_by.
  apply dropwhile_Forall, Forall_rev, dropwhile_Forall, Forall_rev, H.
Qed.

Lemma strip_by_first (p : ascii -> bool) (s : str) (c : ascii) :
  first_char (strip_by p s) = Some c -> p c = false.
Proof. apply dropwhile_first. Qed.

Lemma strip_by_last (p : ascii -> bool) (s : str) (c : ascii) :
  last_char (strip_by p s) = Some c -> p c = false.
Proof.
  unfold strip_by, lstrip_by, rstrip_by, last_char.
  set (r := rev (dropwhile p (rev s))).
  destruct (dropwhile_suffix p r) as [a Ha].
  assert (Hr : rev r = dropwhile p (rev s)) by (unfold r; apply rev_involutive).
  destruct (rev (dropwhile p r)) as [|x t] eqn:E; simpl; [discriminate|].
  intros H. injection H as ->.
  apply (dropwhile_first p (rev s)). rewrite <- Hr.
  rewrite Ha, rev_app_distr, E. reflexivity.
Qed.

Lemma strip_by_fixed (p : ascii -> bool) (s : str) :
  (forall c, first_char s = Some c -> p c = false) ->
  (forall c, last_char s = Some c -> p c = false) ->
  strip_by p s = s.
Proof.
  intros Hf Hl. unfold strip_by, lstrip_by, rstrip_by.
  rewrite (dropwhile_fixed p (rev s) Hl), rev_involutive.
  apply dropwhile_fixed, Hf.
Qed.

(** ** The anchor generator *)

Lemma anchor_char_of_sub (c : ascii) :
  anchor_char (lower_char (if anchor_keep c then c else "-"%char)) = true.
Proof. each_char c. Qed.

Lemma anchor_char_keep (c : ascii) : anchor_char c = true -> anchor_keep c = true.
Proof. each_char c. Qed.

Lemma anchor_char_lower (c : ascii) : anchor_char c = true -> lower_char c = c.
Proof. each_char c. Qed.

Lemma make_anchor_chars (s : str) :
  Forall (fun c => anchor_char c = true) (make_anchor s).
Proof.
  unfold make_anchor, strip_chars. apply strip_by_Forall.
  unfold lower, sub_non_anchor. rewrite map_map.
  apply Forall_forall. intros c Hc. apply in_map_iff in Hc.
  destruct Hc as [x [<- _]]. apply anchor_char_of_sub.
Qed.

Lemma dash_test (c : ascii) :
  existsb (Ascii.eqb c) (list_ascii_of_string "-") = false -> c <> "-"%char.
Proof.
  simpl. rewrite orb_false_r. intros H ->. rewrite Ascii.eqb_refl in H.
  discriminate.
Qed.

Lemma make_anchor_first (s : str) : first_char (make_anchor s) <> Some "-"%char.
Proof.
  intros H. apply strip_by_first in H. apply dash_test in H. congruence.
Qed.

Lemma make_anchor_last (s : str) : last_char (make_anchor s) <> Some "-"%char.
Proof.
  intros H. apply strip_by_last in H. apply dash_test in H. congruence.
Qed.

Lemma anchor_text_fixed (a : str) :
  Forall (fun c => anchor_char c = true) a ->
  first_char a <> Some "-"%char -> last_char a <> Some "-"%char ->
  make_anchor a = a.
Proof.
  intros Ha Hf Hl. unfold make_anchor, strip_chars.
  assert (E : lower (sub_non_anchor a) = a).
  { clear Hf Hl. unfold lower, sub_non_anchor. rewrite map_map.
    induction Ha as [|c a Hc Ha IH]; simpl; [reflexivity|].
    rewrite (anchor_char_keep c Hc), (anchor_char_lower c Hc). f_equal.
    exact IH. }
  rewrite E. apply strip_by_fixed; intros c Hc; simpl; rewrite orb_false_r.
  - destruct (Ascii.eqb_spec c "-"); [subst; congruence | reflexivity].
  - destruct (Ascii.eqb_spec c "-"); [subst; congruence | reflexivity].
Qed.

(** C7: the anchor generator is idempotent, every character of its output is
    in the class [a-z0-9_-], and the output neither begins nor ends with a
    dash. *)
Theorem make_anchor_idempotent (s : str) :
  make_anchor (make_anchor s) = make_anchor s
  /\ Forall (fun c => anchor_char c = true) (make_anchor s)
  /\ first_char (make_anchor s) <> Some "-"%char
  /\ last_char (make_anchor s) <> Some "-"%char.
Proof.
  pose proof (make_anchor_chars s) as Hc.
  pose proof (make_anchor_first s) as Hf.
  pose proof (make_anchor_last s) as Hl.
  repeat split; try assumption.
  apply anchor_text_fixed; assumption.
Qed.

(** ** Ordered dictionaries *)

Lemma str_eqb_eq (a b : str) : str_eqb a b = true <-> a = b.
Proof.
  unfold str_eqb. destruct (list_eq_dec ascii_dec a b); split; congruence.
Qed.

Lemma str_eqb_refl (a : str) : str_eqb a a = true.
Proof. apply str_eqb_eq. reflexivity. Qed.

Lemma str_eqb_neq (a b : str) : str_eqb a b = false <-> a <> b.
Proof.
  unfold str_eqb. destruct (list_eq_dec ascii_dec a b); split; congruence.
Qed.

Lemma od_get_set {V} (k k' : str) (v : V) (d : odict V) :
  od_get k (od_set k' v d) = if str_eqb k k' then Some v else od_get k d.
Proof.
  induction d as [|[k0 v0] d IH]; simpl.
  - reflexivity.
  - destruct (str_eqb k' k0) eqn:E0; simpl.
    + apply str_eqb_eq in E0. subst k0.
      destruct (str_eqb k k'); reflexivity.
    + rewrite IH. destruct (str_eqb k k0) eqn:E1; [|reflexivity].
      apply str_eqb_eq in E1. subst k0.
      destruct (str_eqb k k') eqn:E2; [|reflexivity].
      apply str_eqb_eq in E2. subst k'. rewrite str_eqb_refl in E0.
      discriminate.
Qed.

Lemma od_get_keys {V} (k : str) (d : odict V) :
  In k (od_keys d) <-> od_get k d <> None.
Proof.
  induction d as [|[k0 v0] d IH]; simpl.
  - split; [contradiction | congruence].
  - destruct (str_eqb k k0) eqn:E.
    + apply str_eqb_eq in E. subst. split; [discriminate | auto].
    + apply str_eqb_neq in E. rewrite <- IH. split; [|auto].
      intros [H|H]; [congruence | exact H].
Qed.

Lemma od_keys_set {V} (k : str) (v : V) (d : odict V) :
  od_keys (od_set k v d) = if od_mem k d then od_keys d else od_keys d ++ [k].
Proof.
  unfold od_mem. induction d as [|[k0 v0] d IH]; simpl; [reflexivity|].
  destruct (str_eqb k k0) eqn:E; simpl; [reflexivity|].
  rewrite IH. destruct (od_get k d); reflexivity.
Qed.

Lemma od_set_NoDup {V} (k : str) (v : V) (d : odict V) :
  NoDup (od_keys d) -> NoDup (od_keys (od_set k v d)).
Proof.
  intros H. rewrite od_keys_set. destruct (od_mem k d) eqn:E; [exact H|].
  apply NoDup_rev in H. rewrite <- (rev_involutive (od_keys d ++ [k])).
  apply NoDup_rev. rewrite rev_app_distr. simpl. constructor; [|exact H].
  rewrite <- in_rev. rewrite od_get_keys. unfold od_mem in E.
  destruct (od_get k d); congruence.
Qed.

Lemma od_get_filter {V} (f : V -> bool) (k : str) (d : odict V) :
  NoDup (od_keys d) ->
  od_get k (filter (fun kv => f (snd kv)) d)
  = match od_get k d with
    | Some v => if f v then Some v else None
    | None => None
    end.
Proof.
  induction d as [|[k0 v0] d IH]; simpl; [reflexivity|].
  intros H. inversion H as [|? ? Hk Hd]; subst.
  specialize (IH Hd).
  destruct (str_eqb k k0) eqn:E.
  - apply str_eqb_eq in E. subst k0.
    destruct (f v0); simpl.
    + rewrite str_eqb_refl. reflexivity.
    + rewrite IH. rewrite od_get_keys in Hk.
      destruct (od_get k d); [exfalso; apply Hk; discriminate | reflexivity].
  - destruct (f v0); simpl; [rewrite E|]; exact IH.
Qed.

Lemma od_keys_filter_NoDup {V} (f : str * V -> bool) (d : odict V) :
  NoDup (od_keys d) -> NoDup (od_keys (filter f d)).
Proof.
  induction d as [|kv d IH]; simpl; [auto|].
  intros H. inversion H as [|? ? Hk Hd]; subst.
  destruct (f kv); simpl; [|auto].
  constructor; [|auto]. intros Hin. apply Hk.
  unfold od_keys in *. apply in_map_iff in Hin. destruct Hin as [x [Hx Hin]].
  apply filter_In in Hin. apply in_map_iff. exists x. tauto.
Qed.

(** ** The categorizer *)

Lemma init_groups_empty (cats : list str) (g : odict (list DocEntry)) :
  NoDup (od_keys g) ->
  (forall k l, od_get k g = Some l -> l = []) ->
  let g' := fold_left (fun g cat => od_set cat [] g) cats g in
  NoDup (od_keys g') /\ (forall k l, od_get k g' = Some l -> l = []).
Proof.
  revert g. induction cats as [|c cats IH]; simpl; intros g Hn Hg.
  - split; assumption.
  - apply IH.
    + apply od_set_NoDup, Hn.
    + intros k l. rewrite od_get_set. destruct (str_eqb k c).
      * intros H. injection H as <-. reflexivity.
      * apply Hg.
Qed.

Lemma entries_in_app (k : str) (a b : list DocEntry) :
  entries_in k (a ++ b) = entries_in k a ++ entries_in k b.
Proof. apply filter_app. Qed.

Lemma od_get_place (k : str) (g : odict (list DocEntry)) (e : DocEntry) :
  od_get k (place_entry g e)
  = if str_eqb k (category_key e)
    then Some (match od_get (category_key e) g with
               | Some l => l ++ [e]
               | None => [e]
               end)
    else od_get k g.
Proof.
  unfold place_entry, od_append, od_mem.
  destruct (od_get (category_key e) g) as [l|] eqn:E.
  - rewrite E, od_get_set. reflexivity.
  - rewrite od_get_set, str_eqb_refl, od_get_set.
    destruct (str_eqb k (category_key e)) eqn:E1; [reflexivity|].
    rewrite od_get_set, E1. reflexivity.
Qed.

Lemma place_entry_NoDup (g : odict (list DocEntry)) (e : DocEntry) :
  NoDup (od_keys g) -> NoDup (od_keys (place_entry g e)).
Proof.
  intros H. unfold place_entry, od_append.
  set (g' := if od_mem (category_key e) g then g else od_set (category_key e) [] g).
  assert (H' : NoDup (od_keys g'))
    by (unfold g'; destruct (od_mem (category_key e) g);
        [exact H | apply od_set_NoDup, H]).
  destruct (od_get (category_key e) g'); [apply od_set_NoDup|]; exact H'.
Qed.

Lemma place_entries_grouped (todo done : list DocEntry) (g : odict (list DocEntry)) :
  NoDup (od_keys g) ->
  (forall k, match od_get k g with
             | Some l => l = entries_in k done
             | None => entries_in k done = []
             end) ->
  let g' := fold_left place_entry todo g in
  NoDup (od_keys g')
  /\ forall k, match od_get k g' with
               | Some l => l = entries_in k (done ++ todo)
               | None => entries_in k (done ++ todo) = []
               end.
Proof.
  revert done g. induction todo as [|e todo IH]; simpl; intros done g Hn Hg.
  - rewrite app_nil_r. split; assumption.
  - replace (done ++ e :: todo) with ((done ++ [e]) ++ todo)
      by (rewrite <- app_assoc; reflexivity).
    apply IH; [apply place_entry_NoDup, Hn|].
    intros k. rewrite od_get_place, entries_in_app. simpl.
    destruct (str_eqb k (category_key e)) eqn:E.
    + apply str_eqb_eq in E. subst k. rewrite str_eqb_refl.
      specialize (Hg (category_key e)).
      destruct (od_get (category_key e) g); [subst|rewrite Hg]; reflexivity.
    + assert (E' : str_eqb (category_key e) k = false).
      { apply str_eqb_neq. apply str_eqb_neq in E. congruence. }
      rewrite E', app_nil_r. apply Hg.
Qed.

Lemma grouped_all (entries : list DocEntry) :
  let g := fold_left place_entry entries
             (fold_left (fun g cat => od_set cat [] g) CATEGORY_ORDER []) in
  NoDup (od_keys g)
  /\ forall k, match od_get k g with
               | Some l => l = entries_in k entries
               | None => entries_in k entries = []
               end.
Proof.
  destruct (@init_groups_empty CATEGORY_ORDER [] (NoDup_nil _)) as [Hn H0];
    [discriminate|].
  apply (@place_entries_grouped entries [] _ Hn).
  intros k. simpl.
  match goal with |- match ?x with _ => _ end => destruct x eqn:E end;
    [apply H0 in E; exact E | reflexivity].
Qed.

Lemma group_by_category_get (entries : list DocEntry) (k : str) :
  od_get k (group_by_category entries)
  = if truthy (entries_in k entries) then Some (entries_in k entries) else None.
Proof.
  unfold group_by_category.
  destruct (grouped_all entries) as [Hn Hg].
  rewrite (od_get_filter (@truthy DocEntry) k _ Hn).
  specialize (Hg k). cbv zeta in Hg.
  match goal with |- match ?x with _ => _ end = _ => destruct x as [l|] end;
    [subst; reflexivity|].
  rewrite Hg. reflexivity.
Qed.

Lemma group_by_category_NoDup (entries : list DocEntry) :
  NoDup (od_keys (group_by_category entries)).
Proof.
  unfold group_by_category.
  destruct (grouped_all entries) as [Hn _].
  apply od_keys_filter_NoDup, Hn.
Qed.

Lemma truthy_entries_in (k : str) (entries : list DocEntry) :
  truthy (entries_in k entries) = true
  <-> exists e, In e entries /\ category_key e = k.
Proof.
  unfold entries_in. split.
  - destruct (filter _ entries) as [|e l] eqn:E; [discriminate|].
    intros _. exists e.
    assert (H : In e (filter (fun e => str_eqb (category_key e) k) entries))
      by (rewrite E; left; reflexivity).
    apply filter_In in H. rewrite str_eqb_eq in H. exact H.
  - intros [e [Hin Hk]].
    assert (H : In e (filter (fun e => str_eqb (category_key e) k) entries))
      by (apply filter_In; rewrite str_eqb_eq; auto).
    destruct (filter _ entries); [contradiction | reflexivity].
Qed.

(** C5: the result of the categorizer has each key once; its keys are
    exactly the categories that hold an entry, an entry without a category
    counting for "Core"; under each key stand the entries of that category
    in input order; and a category, of the taxonomy or not, that holds no
    entry is absent. *)
Theorem group_by_category_spec (entries : list DocEntry) :
  let groups := group_by_category entries in
  NoDup (od_keys groups)
  /\ (forall k, In k (od_keys groups)
                <-> exists e, In e entries /\ category_key e = k)
  /\ (forall e, category_key e
                = if truthy (category e) then category e
                  else list_ascii_of_string "Core")
  /\ (forall k, In k (od_keys groups) ->
                od_get k groups = Some (entries_in k entries))
  /\ (forall k, (forall e, In e entries -> category_key e <> k) ->
                od_get k groups = None /\ ~ In k (od_keys groups)).
Proof.
  intros groups. unfold groups.
  assert (Hk : forall k, In k (od_keys (group_by_category entries))
                         <-> exists e, In e entries /\ category_key e = k).
  { intros k. rewrite od_get_keys, group_by_category_get, <- truthy_entries_in.
    destruct (truthy (entries_in k entries)); split; congruence. }
  split; [apply group_by_category_NoDup|].
  split; [exact Hk|].
  split; [reflexivity|].
  split.
  - intros k Hin. rewrite group_by_category_get.
    apply Hk, truthy_entries_in in Hin. rewrite Hin. reflexivity.
  - intros k Hno.
    assert (Hn : ~ In k (od_keys (group_by_category entries))).
    { rewrite Hk. intros [e [Hin He]]. exact (Hno e Hin He). }
    split; [|exact Hn].
    rewrite od_get_keys in Hn.
    destruct (od_get k (group_by_category entries)); [|reflexivity].
    exfalso. apply Hn. discriminate.
Qed.

(** ** The walk over the taxonomy and the footer statistics *)

Lemma flat_map_ext_on {A B} (f g : A -> list B) (l : list A) :
  (forall x, In x l -> f x = g x) -> flat_map f l = flat_map g l.
Proof.
  induction l as [|a l IH]; simpl; intros H; [reflexivity|].
  rewrite (H a), IH; auto.
Qed.

Lemma extend_all {A} (l : list (list A)) (acc : list A) :
  fold_left (fun acc cats => acc ++ cats) l acc = acc ++ concat l.
Proof.
  revert acc. induction l as [|x l IH]; simpl; intros acc.
  - rewrite app_nil_r. reflexivity.
  - rewrite IH, app_assoc. reflexivity.
Qed.

Lemma section_category_declared (section : str * list str) (c : str) :
  In section SECTION_GROUPS -> In c (snd section) -> In c CATEGORY_ORDER.
Proof.
  intros Hs Hc. unfold CATEGORY_ORDER. rewrite extend_all, app_nil_l.
  apply in_concat. exists (snd section). split; [|exact Hc].
  unfold od_values. apply in_map, Hs.
Qed.

Lemma active_cats_agree (g1 g2 : odict (list DocEntry)) (cats : list str) :
  (forall c, In c cats -> od_get c g1 = od_get c g2) ->
  active_cats g1 cats = active_cats g2 cats.
Proof.
  intros H. unfold active_cats, od_mem. apply filter_ext_in.
  intros c Hc. rewrite (H c Hc). reflexivity.
Qed.

Lemma active_cats_incl (g : odict (list DocEntry)) (cats : list str) (c : str) :
  In c (active_cats g cats) -> In c cats.
Proof. unfold active_cats. intros H. apply filter_In in H. tauto. Qed.

Lemma sidebar_walk_agree (g1 g2 : odict (list DocEntry)) :
  (forall c, In c CATEGORY_ORDER -> od_get c g1 = od_get c g2) ->
  sidebar_walk g1 = sidebar_walk g2.
Proof.
  intros H. unfold sidebar_walk. apply flat_map_ext_on. intros sec Hs.
  assert (Hc : forall c, In c (snd sec) -> od_get c g1 = od_get c g2)
    by (intros c Hc; apply H, (section_category_declared _ Hs Hc)).
  unfold sidebar_section. rewrite (active_cats_agree g1 g2 _ Hc).
  destruct (negb (truthy (active_cats g2 (snd sec)))); [reflexivity|].
  do 2 f_equal. apply flat_map_ext_on. intros c Hin.
  apply active_cats_incl in Hin.
  unfold sidebar_link, entries_of. rewrite (Hc c Hin). reflexivity.
Qed.

Lemma content_walk_agree (g1 g2 : odict (list DocEntry)) :
  (forall c, In c CATEGORY_ORDER -> od_get c g1 = od_get c g2) ->
  content_walk g1 = content_walk g2.
Proof.
  intros H. unfold content_walk. apply flat_map_ext_on. intros sec Hs.
  assert (Hc : forall c, In c (snd sec) -> od_get c g1 = od_get c g2)
    by (intros c Hc; apply H, (section_category_declared _ Hs Hc)).
  unfold content_section. rewrite (active_cats_agree g1 g2 _ Hc).
  destruct (negb (truthy (active_cats g2 (snd sec)))); [reflexivity|].
  apply flat_map_ext_on. intros c Hin. apply active_cats_incl in Hin.
  unfold category_block, entries_of. rewrite (Hc c Hin). reflexivity.
Qed.

Lemma sum_lengths {A} (l : list (list A)) (n : nat) :
  fold_left (fun acc v => acc + length v) l n = n + list_sum (map (@length A) l).
Proof.
  revert n. induction l as [|v l IH]; simpl; intros n; [lia|].
  rewrite IH. lia.
Qed.

Lemma total_entries_sum (groups : odict (list DocEntry)) :
  total_entries groups = list_sum (map (@length DocEntry) (od_values groups)).
Proof. unfold total_entries. rewrite sum_lengths. reflexivity. Qed.

Lemma od_set_fresh {V} (k : str) (v : V) (d : odict V) :
  od_mem k d = false -> od_set k v d = d ++ [(k, v)].
Proof.
  unfold od_mem. induction d as [|[k0 v0] d IH]; simpl; [reflexivity|].
  destruct (str_eqb k k0); [discriminate|].
  intros H. rewrite (IH H). reflexivity.
Qed.

(** C1: the renderer returns, and prints in the footer line of the page, the
    sum of the lengths of all entry lists as the entry count and the number of
    keys as the category count.  A category outside the taxonomy adds its
    entries and itself to the two counts while the sidebar and the content
    built by the walk over the taxonomy stay as they were. *)
Theorem footer_statistics (T : template) (groups : odict (list DocEntry)) :
  generate_html T groups true
  = Done (mkOutput (text_of (full_html T groups))
            (list_sum (map (@length DocEntry) (od_values groups)),
             length (od_keys groups)))
  /\ (exists before after,
        full_html T groups
        = before
          ++ [ Val (str_of_nat (list_sum (map (@length DocEntry) (od_values groups))));
               Lit " functions across ";
               Val (str_of_nat (length (od_keys groups)));
               Lit " categories" ]
          ++ after)
  /\ (forall c es,
        ~ In c CATEGORY_ORDER -> od_mem c groups = false ->
        let groups' := od_set c es groups in
        total_entries groups' = total_entries groups + length es
        /\ total_categories groups' = S (total_categories groups)
        /\ sidebar_walk groups' = sidebar_walk groups
        /\ content_walk groups' = content_walk groups).
Proof.
  assert (Hc : total_categories groups = length (od_keys groups))
    by (unfold total_categories, od_keys; rewrite length_map; reflexivity).
  split; [|split].
  - unfold generate_html. rewrite total_entries_sum, Hc. reflexivity.
  - exists ([Lit (page_head T)] ++ sidebar_html groups ++ [Lit (page_before_stats T)]).
    exists ([Lit (page_after_stats T)] ++ content_html groups ++ [Lit (page_tail T)]).
    unfold full_html, stats_line. rewrite total_entries_sum, Hc.
    rewrite <- !app_assoc. reflexivity.
  - intros c es Hout Hfresh groups'.
    assert (Hget : forall c', In c' CATEGORY_ORDER ->
                              od_get c' groups' = od_get c' groups).
    { intros c' Hin. unfold groups'. rewrite od_get_set.
      destruct (str_eqb c' c) eqn:E; [|reflexivity].
      apply str_eqb_eq in E. subst. contradiction. }
    repeat split.
    + unfold groups'. rewrite (od_set_fresh c es groups Hfresh).
      rewrite !total_entries_sum. unfold od_values.
      rewrite !map_app, list_sum_app. simpl. lia.
    + unfold groups', total_categories.
      rewrite (od_set_fresh c es groups Hfresh), length_app. simpl. lia.
    + apply sidebar_walk_agree, Hget.
    + apply content_walk_agree, Hget.
Qed.

(** ** The doc-comment parser *)

Lemma split_nonempty (sep : ascii) (s : str) : split sep s <> [].
Proof.
  destruct s as [|c s]; simpl; [discriminate|].
  destruct (Ascii.eqb c sep); [discriminate|].
  destruct (split sep s); discriminate.
Qed.

Lemma split_line_then (sep : ascii) (l rest : str) :
  ~ In sep l -> split sep (l ++ sep :: rest) = l :: split sep rest.
Proof.
  induction l as [|c l IH]; simpl; intros H.
  - rewrite Ascii.eqb_refl. reflexivity.
  - destruct (Ascii.eqb_spec c sep) as [->|_]; [exfalso; auto|].
    rewrite IH by auto. reflexivity.
Qed.

Lemma split_line (sep : ascii) (l : str) : ~ In sep l -> split sep l = [l].
Proof.
  induction l as [|c l IH]; simpl; intros H; [reflexivity|].
  destruct (Ascii.eqb_spec c sep) as [->|_]; [exfalso; auto|].
  rewrite IH by auto. reflexivity.
Qed.

Lemma split_join (sep : ascii) (lines : list str) :
  lines <> [] -> Forall (fun l => ~ In sep l) lines ->
  split sep (join [sep] lines) = lines.
Proof.
  intros Hne H. induction H as [|l lines Hl H IH]; [exfalso; apply Hne; reflexivity|].
  destruct lines as [|l2 lines].
  - simpl. apply split_line, Hl.
  - change (join [sep] (l :: l2 :: lines)) with (l ++ sep :: join [sep] (l2 :: lines)).
    rewrite split_line_then by exact Hl. rewrite IH by discriminate.
    reflexivity.
Qed.

Lemma parse_lines_cons (l : str) (rest : list str) :
  parse_lines (l :: rest)
  = if is_block_start (strip l)
    then block_from (start_entry (strip l)) [] rest
    else parse_lines rest.
Proof. reflexivity. Qed.

Lemma parse_lines_start (l : str) (rest : list str) :
  is_block_start (strip l) = true ->
  parse_lines (l :: rest) = block_from (start_entry (strip l)) [] rest.
Proof. intros H. rewrite parse_lines_cons, H. reflexivity. Qed.

Lemma parse_lines_other (l : str) (rest : list str) :
  is_block_start (strip l) = false -> parse_lines (l :: rest) = parse_lines rest.
Proof. intros H. rewrite parse_lines_cons, H. reflexivity. Qed.

Lemma block_from_cons (e : DocEntry) (d : list str) (l : str) (ls : list str) :
  block_from e d (l :: ls)
  = if negb (startswith "///" (strip l))
    then finish_entry e d :: parse_lines (l :: ls)
    else block_from (fst (block_line (strip (skipn 3 (strip l))) e d))
                    (snd (block_line (strip (skipn 3 (strip l))) e d)) ls.
Proof. reflexivity. Qed.

Lemma parse_lines_unmarked (before rest : list str) :
  Forall unmarked_line before -> parse_lines (before ++ rest) = parse_lines rest.
Proof.
  induction 1 as [|l before [Hl _] H IH]; [reflexivity|].
  rewrite <- app_comm_cons, parse_lines_other; [exact IH|].
  unfold is_block_start. rewrite Hl. reflexivity.
Qed.

Lemma block_from_marked (e : DocEntry) (d : list str) (l : str) (ls : list str) :
  startswith "///" (strip l) = true ->
  block_from e d (l :: ls)
  = block_from (fst (block_line (strip (skipn 3 (strip l))) e d))
               (snd (block_line (strip (skipn 3 (strip l))) e d)) ls.
Proof. intros H. rewrite block_from_cons, H. reflexivity. Qed.

Lemma block_from_end (e : DocEntry) (d : list str) (after : list str) :
  Forall unmarked_line after -> block_from e d after = [finish_entry e d].
Proof.
  intros H. destruct H as [|l after [Hl Hn] H]; [reflexivity|].
  rewrite block_from_cons, Hl. simpl negb. cbv iota. f_equal.
  rewrite <- (app_nil_r (l :: after)).
  apply parse_lines_unmarked. constructor; [split|]; assumption.
Qed.

(** C2: a source text that holds the block of the example, between lines
    that do not carry the marker, parses to exactly one entry, with kind
    "builtin", name "f", category "C", description "desc" and the one
    example "f(1)  // ok". *)
Theorem parse_example_block (before after : list str) :
  Forall unmarked_line before -> Forall unmarked_line after ->
  parse_doc_blocks (join nl (before ++ example_block_lines ++ after))
  = [example_entry]
  /\ kind example_entry = list_ascii_of_string "builtin"
  /\ name example_entry = list_ascii_of_string "f"
  /\ category example_entry = list_ascii_of_string "C"
  /\ description example_entry = list_ascii_of_string "desc"
  /\ examples example_entry = [list_ascii_of_string "f(1)  // ok"].
Proof.
  intros Hb Ha. split; [|repeat split].
  unfold parse_doc_blocks, nl.
  rewrite split_join.
  - rewrite parse_lines_unmarked by exact Hb.
    unfold example_block_lines. rewrite <- !app_comm_cons, app_nil_l.
    rewrite parse_lines_start by (vm_compute; reflexivity).
    rewrite block_from_marked by (vm_compute; reflexivity).
    rewrite block_from_marked by (vm_compute; reflexivity).
    rewrite block_from_marked by (vm_compute; reflexivity).
    rewrite block_from_end by exact Ha.
    vm_compute. reflexivity.
  - unfold example_block_lines. destruct before; discriminate.
  - apply Forall_app. split; [|apply Forall_app; split].
    + eapply Forall_impl; [|exact Hb]. intros l [_ H]. exact H.
    + unfold example_block_lines.
      repeat constructor; vm_compute; intros H;
        repeat (destruct H as [H|H]; [discriminate|]); exact H.
    + eapply Forall_impl; [|exact Ha]. intros l [_ H]. exact H.
Qed.

(** C2, at an input: the block after a line of code and before two more. *)
Lemma parse_example_block_witness :
  parse_doc_blocks
    (join nl ([list_ascii_of_string "static int depth;"]
              ++ example_block_lines
              ++ [list_ascii_of_string "if (strcmp(fn_name, f) == 0) {"; []]))
  = [example_entry].
Proof.
  refine (proj1 (@parse_example_block
                   [list_ascii_of_string "static int depth;"]
                   [list_ascii_of_string "if (strcmp(fn_name, f) == 0) {"; []]
                   _ _)).
  - repeat constructor; vm_compute; intros H;
      repeat (destruct H as [H|H]; [discriminate|]); exact H.
  - repeat constructor; vm_compute; intros H;
      repeat (destruct H as [H|H]; [discriminate|]); exact H.
Defined.

(** ** The matcher on the signature pattern *)

Lemma takewhile_dropwhile (p : ascii -> bool) (s : str) :
  takewhile p s ++ dropwhile p s = s.
Proof.
  induction s as [|c s IH]; simpl; [reflexivity|].
  destruct (p c); simpl; [f_equal; exact IH | reflexivity].
Qed.

Lemma firstn_takewhile (p : ascii -> bool) (s : str) :
  firstn (length (takewhile p s)) s = takewhile p s.
Proof.
  induction s as [|c s IH]; simpl; [reflexivity|].
  destruct (p c); simpl; [f_equal; exact IH | reflexivity].
Qed.

Lemma dropwhile_head (p : ascii -> bool) (s : str) (c : ascii) (u : str) :
  dropwhile p s = c :: u -> p c = false.
Proof. intros H. apply (dropwhile_first p s). rewrite H. reflexivity. Qed.

Lemma dropwhile_all (p : ascii -> bool) (s : str) :
  dropwhile p s = [] -> takewhile p s = s.
Proof.
  intros H. rewrite <- (takewhile_dropwhile p s) at 2. rewrite H, app_nil_r.
  reflexivity.
Qed.

Lemma last_shift (c d : ascii) (s : str) : last (c :: s) d = last s c.
Proof.
  revert c d. induction s as [|x s IH]; intros c d; [reflexivity|].
  change (last (c :: x :: s) d) with (last (x :: s) d).
  rewrite IH. symmetry. apply IH.
Qed.

Section Stars.
Variable A : Type.
Variable p : ascii -> bool.
Variable k : nat -> str -> option A.

(** The longest run is tried first. *)
Lemma star_greedy_first (i : nat) (s : str) (r : A) :
  k (i + length (takewhile p s)) (dropwhile p s) = Some r ->
  star_greedy p i s k = Some r.
Proof.
  revert i. induction s as [|c s IH]; simpl; intros i.
  - rewrite Nat.add_0_r. auto.
  - destruct (p c); simpl.
    + rewrite Nat.add_succ_r. intros H. rewrite (IH (S i) H). reflexivity.
    + rewrite Nat.add_0_r. auto.
Qed.

(** When giving a character back never leads to another result, the star
    takes the longest run. *)
Lemma star_greedy_commit (i : nat) (s : str) :
  (forall j c t, p c = true -> k j (c :: t) <> None ->
                 k j (c :: t) = k (S j + length (takewhile p t)) (dropwhile p t)) ->
  star_greedy p i s k = k (i + length (takewhile p s)) (dropwhile p s).
Proof.
  intros Hk. revert i. induction s as [|c s IH]; simpl; intros i.
  - rewrite Nat.add_0_r. reflexivity.
  - destruct (p c) eqn:E; simpl.
    + rewrite Nat.add_succ_r, IH, Nat.add_succ_l.
      destruct (k (S (i + length (takewhile p s))) (dropwhile p s)) eqn:E1;
        [reflexivity|].
      destruct (k i (c :: s)) eqn:E2; [|reflexivity].
      rewrite <- E2, Hk, Nat.add_succ_l, <- E1; [reflexivity | exact E | congruence].
    + rewrite Nat.add_0_r. reflexivity.
Qed.

(** A continuation that wants at least one character gets the rest after
    the longest run, or the last character of the run when nothing is left. *)
Lemma star_greedy_keep_one (i : nat) (s : str) :
  (forall j, k j [] = None) -> (forall j x t, k j (x :: t) <> None) ->
  star_greedy p i s k
  = match dropwhile p s with
    | _ :: _ => k (i + length (takewhile p s)) (dropwhile p s)
    | [] => match s with
            | [] => None
            | c :: s' => k (i + length s') [last s' c]
            end
    end.
Proof.
  intros H0 H1. destruct (dropwhile p s) as [|d u] eqn:Ed.
  - revert i Ed. induction s as [|c s IH]; simpl; intros i Ed; [apply H0|].
    destruct (p c) eqn:E; [|discriminate].
    rewrite (IH (S i) Ed). destruct s as [|c' s'].
    + rewrite Nat.add_0_r. reflexivity.
    + simpl length. rewrite Nat.add_succ_r. simpl plus.
      rewrite last_shift.
      destruct (k (S (i + length s')) [last s' c']) eqn:E1; [reflexivity|].
      exfalso. exact (H1 _ _ _ E1).
  - destruct (k (i + length (takewhile p s)) (d :: u)) eqn:E1.
    + apply star_greedy_first. rewrite Ed. exact E1.
    + exfalso. exact (H1 _ _ _ E1).
Qed.
End Stars.

(** The pattern, by its parts. *)
Lemma signature_regex_parts :
  signature_regex
  = (Bos ;; Group 1 (Class is_name_char ;; Star true is_name_char) ;; open_regex)%re.
Proof. reflexivity. Qed.

Lemma space_not_dash (c : ascii) : is_space c = true -> Ascii.eqb "-" c = false.
Proof. each_char c. Qed.

Lemma space_not_paren (c : ascii) : is_space c = true -> Ascii.eqb "(" c = false.
Proof. each_char c. Qed.

Lemma name_not_space (c : ascii) : is_name_char c = true -> is_space c = false.
Proof. each_char c. Qed.

Lemma name_not_paren (c : ascii) : is_name_char c = true -> Ascii.eqb "(" c = false.
Proof. each_char c. Qed.

Lemma newline_space (c : ascii) : Ascii.eqb c "010" = true -> is_space c = true.
Proof. each_char c. Qed.

Lemma takewhile_any (t : str) : takewhile any_char t = t.
Proof. induction t as [|x t IH]; simpl; [|rewrite IH]; reflexivity. Qed.

Lemma dropwhile_any (t : str) : dropwhile any_char t = [].
Proof. induction t as [|x t IH]; simpl; [|rewrite IH]; reflexivity. Qed.

(** The return type takes all that is left, which must be something. *)
Lemma run_return (i : nat) (s : str) (g : captures)
      (k : nat -> str -> captures -> option captures) (r : captures) :
  s <> [] -> k (i + length s) [] ((4, s) :: g) = Some r ->
  run return_regex i s g k = Some r.
Proof.
  intros Hs Hk. destruct s as [|c s]; [congruence|].
  cbn [run return_regex any_char].
  apply star_greedy_first.
  rewrite takewhile_any, dropwhile_any.
  replace (S i + length s - i) with (length (c :: s)) by (cbn [length]; lia).
  rewrite firstn_all.
  replace (S i + length s) with (i + length (c :: s)) by (cbn [length]; lia).
  exact Hk.
Qed.

Lemma run_return_nil (i : nat) (g : captures)
      (k : nat -> str -> captures -> option captures) :
  run return_regex i [] g k = None.
Proof. reflexivity. Qed.

Lemma run_eos_nil (i : nat) (g : captures) : run Eos i [] g accept = Some g.
Proof. reflexivity. Qed.

(** The arrow clause up to the end of the text. *)
Lemma run_arrow (i : nat) (r : str) (g : captures) :
  run arrow_regex i r g (fun i' s' g' => run Eos i' s' g' accept)
  = match r with
    | c1 :: c2 :: t =>
        if Ascii.eqb "-" c1 && Ascii.eqb ">" c2 then
          match dropwhile is_space t with
          | _ :: _ => Some ((3, r) :: (4, dropwhile is_space t) :: g)
          | [] => match t with
                  | [] => None
                  | c :: t' => Some ((3, r) :: (4, [last t' c]) :: g)
                  end
          end
        else None
    | _ => None
    end.
Proof.
  destruct r as [|c1 [|c2 t]].
  - reflexivity.
  - cbn [run arrow_regex]. destruct (Ascii.eqb "-" c1); reflexivity.
  - cbn [run arrow_regex].
    destruct (Ascii.eqb "-" c1); [|reflexivity].
    destruct (Ascii.eqb ">" c2); [|reflexivity].
    cbn [andb].
    set (k3 := fun (i' : nat) (s' : str) (g' : captures) =>
                 run Eos i' s' ((3, firstn (i' - i) (c1 :: c2 :: t)) :: g') accept).
    assert (Hk : forall j s, s <> [] -> j + length s = i + length (c1 :: c2 :: t) ->
                 run return_regex j s g k3 = Some ((3, c1 :: c2 :: t) :: (4, s) :: g)).
    { intros j s Hs Hj. apply run_return; [exact Hs|]. unfold k3.
      rewrite run_eos_nil, Hj.
      replace (i + length (c1 :: c2 :: t) - i) with (length (c1 :: c2 :: t)) by lia.
      rewrite firstn_all. reflexivity. }
    rewrite star_greedy_keep_one.
    + destruct (dropwhile is_space t) as [|d u] eqn:Ed.
      * destruct t as [|c t']; [reflexivity|].
        apply Hk; [discriminate|]. cbn [length]. lia.
      * apply Hk; [discriminate|].
        rewrite <- (takewhile_dropwhile is_space t) at 2. rewrite Ed.
        cbn [length]. rewrite length_app. cbn [length]. lia.
    + intros j. apply run_return_nil.
    + intros j x u.
      erewrite run_return; [discriminate | discriminate | reflexivity].
Qed.

Lemma run_arrow_space (i : nat) (c : ascii) (t : str) (g : captures) :
  is_space c = true ->
  run arrow_regex i (c :: t) g (fun i' s' g' => run Eos i' s' g' accept) = None.
Proof.
  intros Hc. rewrite run_arrow, (space_not_dash c Hc).
  destruct t; reflexivity.
Qed.

(** The tail after the closing parenthesis. *)
Lemma run_tail (i : nat) (rest : str) (g : captures) :
  run tail_regex i rest g accept
  = option_map (fun t => arrow_captures t g) (tail_match rest).
Proof.
  change (run tail_regex i rest g accept)
    with (star_greedy is_space i rest
            (fun i' s' =>
               match run arrow_regex i' s' g
                         (fun i2 s2 g2 => run Eos i2 s2 g2 accept) with
               | Some r => Some r
               | None => run Eos i' s' g accept
               end)).
  rewrite star_greedy_commit.
  - rewrite run_arrow. unfold tail_match.
    destruct (dropwhile is_space rest) as [|c1 [|c2 t]] eqn:Ed.
    + reflexivity.
    + cbn [run option_map].
      destruct (Ascii.eqb c1 "010") eqn:E; [|reflexivity].
      apply newline_space in E. apply dropwhile_head in Ed. congruence.
    + destruct (Ascii.eqb "-" c1 && Ascii.eqb ">" c2); [|reflexivity].
      destruct (dropwhile is_space t); [|reflexivity].
      destruct t; reflexivity.
  - intros j c t Hc. cbv beta. rewrite (@run_arrow_space j c t g Hc).
    destruct t as [|c' t]; [|intros H; exfalso; apply H; reflexivity].
    cbn [takewhile dropwhile length]. rewrite run_arrow. cbn [run].
    destruct (Ascii.eqb c "010"); [reflexivity|].
    intros H. exfalso. apply H. reflexivity.
Qed.

Lemma firstn_prefix (i : nat) (pre s : str) :
  firstn (i + length pre - i) (pre ++ s) = pre.
Proof.
  replace (i + length pre - i) with (length pre + 0) by lia.
  rewrite firstn_app_2, app_nil_r. reflexivity.
Qed.

(** The lazy star of the parameters stops at the first closing parenthesis
    that has an acceptable tail. *)
Lemma run_close_from (i : nat) (s0 : str) (g : captures) (s pre : str) :
  s0 = pre ++ s ->
  star_lazy any_char (i + length pre) s
    (fun i' s' =>
       run (Chr ")" ;; tail_regex) i' s' ((2, firstn (i' - i) s0) :: g) accept)
  = match find_close s with
    | Some (params, t) => Some (arrow_captures t ((2, pre ++ params) :: g))
    | None => None
    end.
Proof.
  revert pre. induction s as [|c s IH]; intros pre Hs0.
  - reflexivity.
  - cbn [star_lazy find_close].
    change (run (Chr ")" ;; tail_regex) (i + length pre) (c :: s)
                ((2, firstn (i + length pre - i) s0) :: g) accept)
      with (if Ascii.eqb ")" c
            then run tail_regex (S (i + length pre)) s
                     ((2, firstn (i + length pre - i) s0) :: g) accept
            else None).
    rewrite run_tail, Hs0, firstn_prefix.
    assert (Hrec :
      star_lazy any_char (S (i + length pre)) s
        (fun i' s' =>
           run (Chr ")" ;; tail_regex) i' s'
               ((2, firstn (i' - i) (pre ++ c :: s)) :: g) accept)
      = match find_close s with
        | Some (params, t) =>
            Some (arrow_captures t ((2, pre ++ c :: params) :: g))
        | None => None
        end).
    { replace (S (i + length pre)) with (i + length (pre ++ [c]))
        by (rewrite length_app; simpl; lia).
      rewrite <- Hs0, (IH (pre ++ [c])).
      - destruct (find_close s) as [[params t]|]; [|reflexivity].
        rewrite <- app_assoc. reflexivity.
      - rewrite <- app_assoc. exact Hs0. }
    unfold any_char at 1.
    destruct (Ascii.eqb ")" c).
    + destruct (tail_match s) as [t|]; cbn [option_map].
      * rewrite app_nil_r. reflexivity.
      * rewrite Hrec. destruct (find_close s) as [[params t]|]; reflexivity.
    + rewrite Hrec. destruct (find_close s) as [[params t]|]; reflexivity.
Qed.

Lemma run_close (i : nat) (s : str) (g : captures) :
  run close_regex i s g accept
  = match find_close s with
    | Some (params, t) => Some (arrow_captures t ((2, params) :: g))
    | None => None
    end.
Proof.
  change (run close_regex i s g accept)
    with (star_lazy any_char i s
            (fun i' s' =>
               run (Chr ")" ;; tail_regex) i' s'
                   ((2, firstn (i' - i) s) :: g) accept)).
  replace i with (i + length (@nil ascii)) at 1 by (simpl; lia).
  apply (@run_close_from i s g s []). reflexivity.
Qed.

(** From the end of the name on. *)
Lemma run_open (i : nat) (s : str) (g : captures) :
  run open_regex i s g accept
  = match dropwhile is_space s with
    | c :: r =>
        if Ascii.eqb "(" c then
          match find_close r with
          | Some (params, t) => Some (arrow_captures t ((2, params) :: g))
          | None => None
          end
        else None
    | [] => None
    end.
Proof.
  change (run open_regex i s g accept)
    with (star_greedy is_space i s
            (fun i' s' =>
               match s' with
               | c' :: s2 =>
                   if Ascii.eqb "(" c' then run close_regex (S i') s2 g accept
                   else None
               | [] => None
               end)).
  rewrite star_greedy_commit.
  - destruct (dropwhile is_space s) as [|c r]; [reflexivity|].
    rewrite run_close. reflexivity.
  - intros j c t Hc. rewrite (space_not_paren c Hc).
    intros H. exfalso. apply H. reflexivity.
Qed.

(** The matcher finds what [match_signature] computes. *)
Lemma re_match_signature (s : str) :
  re_match signature_regex s = option_map captures_of (match_signature s).
Proof.
  unfold match_signature. destruct s as [|c s]; [reflexivity|].
  change (re_match signature_regex (c :: s))
    with (if is_name_char c
          then star_greedy is_name_char 1 s
                 (fun i' s' =>
                    run open_regex i' s' [(1, firstn (i' - 0) (c :: s))] accept)
          else None).
  cbn [takewhile dropwhile].
  destruct (is_name_char c) eqn:Ec; [|reflexivity].
  rewrite star_greedy_commit.
  - rewrite run_open.
    replace (1 + length (takewhile is_name_char s) - 0)
      with (S (length (takewhile is_name_char s))) by lia.
    cbn [firstn]. rewrite firstn_takewhile.
    destruct (dropwhile is_space (dropwhile is_name_char s)) as [|d r];
      [reflexivity|].
    destruct (Ascii.eqb "(" d); [|reflexivity].
    destruct (find_close r) as [[params t]|]; reflexivity.
  - intros j d t Hd. rewrite run_open. cbn [dropwhile].
    rewrite (name_not_space d Hd), (name_not_paren d Hd).
    intros H. exfalso. apply H. reflexivity.
Qed.

(** ** The form of a signature that matches *)

Lemma takewhile_Forall (p : ascii -> bool) (s : str) :
  Forall (fun c => p c = true) (takewhile p s).
Proof.
  induction s as [|c s IH]; simpl; [constructor|].
  destruct (p c) eqn:E; constructor; assumption.
Qed.

Lemma dropwhile_app (p : ascii -> bool) (a b : str) :
  Forall (fun c => p c = true) a -> dropwhile p (a ++ b) = dropwhile p b.
Proof.
  induction 1 as [|c a Hc Ha IH]; simpl; [reflexivity|].
  rewrite Hc. exact IH.
Qed.

Lemma takewhile_app (p : ascii -> bool) (a b : str) :
  Forall (fun c => p c = true) a -> takewhile p (a ++ b) = a ++ takewhile p b.
Proof.
  induction 1 as [|c a Hc Ha IH]; simpl; [reflexivity|].
  rewrite Hc, IH. reflexivity.
Qed.

Lemma tail_match_acceptable (rest : str) :
  tail_match rest <> None <-> acceptable_tail rest.
Proof.
  unfold tail_match, acceptable_tail. split.
  - intros H. pose proof (takewhile_dropwhile is_space rest) as Hr.
    exists (takewhile is_space rest).
    split; [apply takewhile_Forall|].
    destruct (dropwhile is_space rest) as [|c1 [|c2 t]].
    + left. rewrite app_nil_r in Hr. symmetry. exact Hr.
    + congruence.
    + destruct (Ascii.eqb_spec "-" c1) as [<-|]; [|simpl in H; congruence].
      destruct (Ascii.eqb_spec ">" c2) as [<-|]; [|simpl in H; congruence].
      right. exists t. split; [|symmetry; exact Hr].
      intros ->. simpl in H. congruence.
  - intros [ws [Hws [->|[ret [Hret ->]]]]].
    + rewrite <- (app_nil_r ws), dropwhile_app by exact Hws. discriminate.
    + rewrite dropwhile_app by exact Hws.
      destruct ret as [|c t]; [congruence|].
      change ("->" ++ c :: t) with ("-"%char :: ">"%char :: c :: t).
      change (dropwhile is_space ("-"%char :: ">"%char :: c :: t))
        with ("-"%char :: ">"%char :: c :: t).
      cbv beta iota zeta.
      change (Ascii.eqb "-" "-" && Ascii.eqb ">" ">") with true.
      cbv iota.
      destruct (dropwhile is_space (c :: t)); discriminate.
Qed.

Lemma find_close_split (s params : str) (t : arrow_clause) :
  find_close s = Some (params, t) ->
  exists rest,
    s = params ++ ")" ++ rest
    /\ tail_match rest = Some t
    /\ forall p1 p2, params = p1 ++ ")" ++ p2 ->
                     tail_match (p2 ++ ")" ++ rest) = None.
Proof.
  revert params. induction s as [|c s IH]; intros params; [discriminate|].
  cbn [find_close].
  destruct (if Ascii.eqb ")" c then tail_match s else None) as [t0|] eqn:E.
  - intros H. injection H as <- <-.
    destruct (Ascii.eqb_spec ")" c) as [<-|]; [|discriminate].
    exists s. split; [reflexivity|]. split; [exact E|].
    intros [|x p1] p2 H; discriminate.
  - destruct (find_close s) as [[params' t']|] eqn:Ef; [|discriminate].
    intros H. injection H as <- <-.
    destruct (IH params' eq_refl) as [rest [Hs [Ht Hl]]].
    exists rest. split; [rewrite Hs; reflexivity|]. split; [exact Ht|].
    intros [|x p1] p2 H.
    + injection H as Hc Hp. subst c p2. rewrite Ascii.eqb_refl in E.
      rewrite <- Hs. exact E.
    + injection H as _ H. exact (Hl p1 p2 H).
Qed.

Lemma find_close_found (params rest : str) :
  tail_match rest <> None -> find_close (params ++ ")" ++ rest) <> None.
Proof.
  intros H. induction params as [|c params IH].
  - cbn [app list_ascii_of_string find_close]. rewrite Ascii.eqb_refl.
    destruct (tail_match rest); [discriminate | congruence].
  - cbn [app find_close].
    destruct (if Ascii.eqb ")" c then _ else None); [discriminate|].
    destruct (find_close (params ++ ")" ++ rest)) as [[p t]|];
      [discriminate | congruence].
Qed.

Lemma find_close_first (params rest : str) (t : arrow_clause) :
  ~ In ")"%char params -> tail_match rest = Some t ->
  find_close (params ++ ")" ++ rest) = Some (params, t).
Proof.
  intros Hp Ht. induction params as [|c params IH].
  - cbn [app list_ascii_of_string find_close]. rewrite Ascii.eqb_refl, Ht.
    reflexivity.
  - cbn [app find_close].
    destruct (Ascii.eqb_spec ")" c) as [<-|_]; [exfalso; apply Hp; left; reflexivity|].
    rewrite IH; [reflexivity|]. intros H. apply Hp. right. exact H.
Qed.

Lemma match_signature_form (sig : str) :
  match_signature sig <> None <-> has_form sig.
Proof.
  unfold match_signature, has_form. split.
  - intros H.
    destruct (takewhile is_name_char sig) as [|n0 nm'] eqn:En; [congruence|].
    destruct (dropwhile is_space (dropwhile is_name_char sig)) as [|c r] eqn:Ed;
      [congruence|].
    destruct (Ascii.eqb_spec "(" c) as [<-|]; [|congruence].
    destruct (find_close r) as [[params t]|] eqn:Ef; [|congruence].
    destruct (find_close_split r Ef) as [rest [Hr [Ht _]]].
    exists (n0 :: nm'), (takewhile is_space (dropwhile is_name_char sig)), params, rest.
    split; [|split; [discriminate|split; [|split]]].
    + rewrite <- Hr.
      change ("(" ++ r) with ("("%char :: r). rewrite <- Ed.
      rewrite takewhile_dropwhile, <- En, takewhile_dropwhile. reflexivity.
    + rewrite <- En. apply takewhile_Forall.
    + apply takewhile_Forall.
    + apply tail_match_acceptable. congruence.
  - intros [nm [ws [params [rest [-> [Hne [Hnm [Hws Ht]]]]]]]].
    assert (Hn : takewhile is_name_char (ws ++ "(" ++ params ++ ")" ++ rest) = []).
    { destruct ws as [|w ws]; [reflexivity|]. simpl.
      inversion Hws as [|? ? Hw _]; subst.
      destruct (is_name_char w) eqn:E; [|reflexivity].
      apply name_not_space in E. congruence. }
    assert (Hd : dropwhile is_name_char (ws ++ "(" ++ params ++ ")" ++ rest)
                 = ws ++ "(" ++ params ++ ")" ++ rest).
    { rewrite <- (takewhile_dropwhile is_name_char (ws ++ _)) at 2.
      rewrite Hn. reflexivity. }
    rewrite takewhile_app, dropwhile_app, Hn, Hd, app_nil_r by exact Hnm.
    destruct nm as [|n0 nm]; [congruence|].
    rewrite dropwhile_app by exact Hws.
    change ("(" ++ params ++ ")" ++ rest) with ("("%char :: params ++ ")"%char :: rest).
    change (dropwhile is_space ("("%char :: params ++ ")"%char :: rest))
      with ("("%char :: params ++ ")"%char :: rest).
    cbv iota. rewrite Ascii.eqb_refl.
    apply tail_match_acceptable in Ht.
    pose proof (@find_close_found params rest Ht) as Hf.
    cbn [app list_ascii_of_string] in Hf.
    destruct (find_close (params ++ ")"%char :: rest)) as [[p t]|];
      [discriminate | congruence].
Qed.

(** ** Escaping *)

Lemma escape_char_plain (c : ascii) : is_markup_char c = false -> escape_char c = [c].
Proof. each_char c. Qed.

Lemma escape_char_markup (c : ascii) :
  is_markup_char c = true ->
  c = "&"%char \/ c = "<"%char \/ c = ">"%char \/ c = ascii_of_nat 34 \/ c = "'"%char.
Proof.
  destruct c as [[] [] [] [] [] [] [] []]; vm_compute; intros H;
    try discriminate;
    first [ left; reflexivity
          | right; left; reflexivity
          | right; right; left; reflexivity
          | right; right; right; left; reflexivity
          | right; right; right; right; reflexivity ].
Qed.

Lemma escape_char_nonempty (c : ascii) : escape_char c <> [].
Proof. each_char c. Qed.

Lemma escape_cons (c : ascii) (s : str) : escape (c :: s) = escape_char c ++ escape s.
Proof. reflexivity. Qed.

(** The escaped text determines the text. *)
Lemma escape_injective (a b : str) : escape a = escape b -> a = b.
Proof.
  revert b. induction a as [|x a IH]; intros [|y b] H.
  - reflexivity.
  - rewrite escape_cons in H. exfalso. apply (escape_char_nonempty y).
    destruct (escape_char y); [reflexivity | discriminate].
  - rewrite escape_cons in H. exfalso. apply (escape_char_nonempty x).
    destruct (escape_char x); [reflexivity | discriminate].
  - rewrite !escape_cons in H.
    destruct (is_markup_char x) eqn:Ex, (is_markup_char y) eqn:Ey.
    + apply escape_char_markup in Ex, Ey.
      destruct Ex as [-> | [-> | [-> | [-> | ->]]]], Ey as [-> | [-> | [-> | [-> | ->]]]];
        try (apply app_inv_head in H; f_equal; apply IH; exact H);
        exfalso; vm_compute in H; congruence.
    + rewrite (escape_char_plain y Ey) in H. apply escape_char_markup in Ex.
      destruct Ex as [-> | [-> | [-> | [-> | ->]]]];
        injection H as Hy _; subst y; discriminate.
    + rewrite (escape_char_plain x Ex) in H. apply escape_char_markup in Ey.
      destruct Ey as [-> | [-> | [-> | [-> | ->]]]];
        injection H as Hx _; subst x; discriminate.
    + rewrite (escape_char_plain x Ex), (escape_char_plain y Ey) in H.
      injection H as -> H. f_equal. apply IH, H.
Qed.

(** ** The signature tokenizer *)

Lemma format_signature_unmatched (sig : str) :
  re_match signature_regex sig = None ->
  format_signature_html sig = verbatim_token sig.
Proof. intros H. unfold format_signature_html. rewrite H. reflexivity. Qed.

Lemma format_signature_matched (sig : str) :
  re_match signature_regex sig <> None ->
  format_signature_html sig <> verbatim_token sig.
Proof.
  intros H. unfold format_signature_html, verbatim_token.
  destruct (re_match signature_regex sig) as [m|]; [|congruence].
  intros E. apply (f_equal (@length piece)) in E.
  rewrite !length_app in E. cbn [length] in E. lia.
Qed.

Lemma unmatched_iff (sig : str) :
  re_match signature_regex sig = None <-> ~ has_form sig.
Proof.
  rewrite re_match_signature, <- match_signature_form.
  destruct (match_signature sig); cbn [option_map]; intuition congruence.
Qed.

(** C4: the tokenizer is a total function, and on a signature that is not
    of the form [name ( params ) tail] it returns the single verbatim token,
    whose text is the escaped signature between the fixed tags and which
    determines the signature. *)
Theorem tokenizer_fallback (sig : str) :
  ~ has_form sig ->
  re_match signature_regex sig = None
  /\ format_signature_html sig = verbatim_token sig
  /\ text_of (format_signature_html sig)
     = "<span class=" ++ dq ++ "fn" ++ dq ++ ">" ++ escape sig ++ "</span>"
  /\ (forall sig', verbatim_token sig' = verbatim_token sig -> sig' = sig).
Proof.
  intros H. apply unmatched_iff in H.
  split; [exact H|]. split; [apply format_signature_unmatched, H|]. split.
  - rewrite (format_signature_unmatched sig H). unfold verbatim_token, text_of.
    cbn [flat_map piece_text]. rewrite app_nil_r, <- !app_assoc. reflexivity.
  - intros sig' E. unfold verbatim_token in E. injection E as E.
    apply escape_injective, E.
Qed.

(** C4, at inputs: a signature without parentheses, and one whose arrow has
    no return type. *)
Lemma tokenizer_fallback_witness :
  format_signature_html "noop" = verbatim_token "noop"
  /\ format_signature_html "f(a) ->" = verbatim_token "f(a) ->".
Proof.
  split.
  - refine (proj1 (proj2 (@tokenizer_fallback "noop" _))).
    apply unmatched_iff. vm_compute. reflexivity.
  - refine (proj1 (proj2 (@tokenizer_fallback "f(a) ->" _))).
    apply unmatched_iff. vm_compute. reflexivity.
Defined.

Lemma match_signature_split (sig nm params : str) (t : arrow_clause) :
  match_signature sig = Some (nm, params, t) ->
  exists ws rest,
    sig = nm ++ ws ++ "(" ++ params ++ ")" ++ rest
    /\ tail_match rest = Some t
    /\ forall p1 p2, params = p1 ++ ")" ++ p2 ->
                     tail_match (p2 ++ ")" ++ rest) = None.
Proof.
  unfold match_signature. intros H.
  destruct (takewhile is_name_char sig) as [|n0 nm'] eqn:En; [discriminate|].
  destruct (dropwhile is_space (dropwhile is_name_char sig)) as [|c r] eqn:Ed;
    [discriminate|].
  destruct (Ascii.eqb_spec "(" c) as [<-|]; [|discriminate].
  destruct (find_close r) as [[params' t']|] eqn:Ef; [|discriminate].
  injection H as <- <- <-.
  destruct (find_close_split r Ef) as [rest [Hr [Ht Hl]]].
  exists (takewhile is_space (dropwhile is_name_char sig)), rest.
  split; [|split; assumption].
  rewrite <- Hr. change ("(" ++ r) with ("("%char :: r). rewrite <- Ed.
  rewrite takewhile_dropwhile, <- En, takewhile_dropwhile. reflexivity.
Qed.

Lemma group_name (m : str * str * arrow_clause) :
  group (captures_of m) 1 = Some (fst (fst m)).
Proof. destruct m as [[nm params] [[a r]|]]; reflexivity. Qed.

Lemma group_params (m : str * str * arrow_clause) :
  group (captures_of m) 2 = Some (snd (fst m)).
Proof. destruct m as [[nm params] [[a r]|]]; reflexivity. Qed.

Lemma group_return (m : str * str * arrow_clause) :
  group (captures_of m) 4 = option_map snd (snd m).
Proof. destruct m as [[nm params] [[a r]|]]; reflexivity. Qed.

Lemma tail_match_arrow (ret : str) :
  ret <> [] -> dropwhile is_space ret = ret ->
  tail_match (" -> " ++ ret) = Some (Some ("-> " ++ ret, ret)).
Proof.
  intros Hne Hd. unfold tail_match.
  change (dropwhile is_space (" -> " ++ ret)) with ("-> " ++ ret).
  change ("-> " ++ ret) with ("-"%char :: ">"%char :: " "%char :: ret).
  cbv beta iota zeta.
  change (Ascii.eqb "-" "-" && Ascii.eqb ">" ">") with true. cbv iota.
  change (dropwhile is_space (" "%char :: ret)) with (dropwhile is_space ret).
  rewrite Hd. destruct ret; [congruence | reflexivity].
Qed.

Lemma match_signature_name (nm r : str) :
  nm <> [] -> Forall (fun c => is_name_char c = true) nm ->
  match_signature (nm ++ "(" ++ r)
  = match find_close r with
    | Some (params, t) => Some (nm, params, t)
    | None => None
    end.
Proof.
  intros Hne Hnm. unfold match_signature.
  rewrite takewhile_app, dropwhile_app by exact Hnm.
  change ("(" ++ r) with ("("%char :: r).
  change (takewhile is_name_char ("("%char :: r)) with (@nil ascii).
  change (dropwhile is_name_char ("("%char :: r)) with ("("%char :: r).
  change (dropwhile is_space ("("%char :: r)) with ("("%char :: r).
  rewrite app_nil_r. destruct nm as [|n0 nm]; [congruence|].
  cbv iota. rewrite Ascii.eqb_refl. reflexivity.
Qed.

(** C3, as the code has it: in a match the parameters are taken lazily, up
    to the first closing parenthesis that is followed by an acceptable tail;
    a return type may hold parentheses; and a parameter list with a
    parenthesized part inside matches all the same, so that the signature is
    taken apart and not rendered as one verbatim token. *)
Theorem signature_params_lazy :
  (forall sig m,
      re_match signature_regex sig = Some m ->
      exists nm ws params rest,
        sig = nm ++ ws ++ "(" ++ params ++ ")" ++ rest
        /\ group m 1 = Some nm /\ group m 2 = Some params
        /\ acceptable_tail rest
        /\ forall p1 p2, params = p1 ++ ")" ++ p2 ->
                         ~ acceptable_tail (p2 ++ ")" ++ rest))
  /\ (forall nm params ret,
         nm <> [] -> Forall (fun c => is_name_char c = true) nm ->
         ~ In ")"%char params -> ret <> [] -> dropwhile is_space ret = ret ->
         exists m,
           re_match signature_regex (nm ++ "(" ++ params ++ ")" ++ " -> " ++ ret)
           = Some m
           /\ group m 1 = Some nm /\ group m 2 = Some params
           /\ group m 4 = Some ret)
  /\ (forall nm params,
         nm <> [] -> Forall (fun c => is_name_char c = true) nm ->
         re_match signature_regex (nm ++ "(" ++ params ++ ")") <> None
         /\ format_signature_html (nm ++ "(" ++ params ++ ")")
            <> verbatim_token (nm ++ "(" ++ params ++ ")")).
Proof.
  split; [|split].
  - intros sig m H. rewrite re_match_signature in H.
    destruct (match_signature sig) as [[[nm params] t]|] eqn:E; [|discriminate].
    injection H as <-.
    destruct (match_signature_split sig E) as [ws [rest [Hs [Ht Hl]]]].
    exists nm, ws, params, rest.
    split; [exact Hs|]. split; [apply group_name|]. split; [apply group_params|].
    split.
    + apply tail_match_acceptable. congruence.
    + intros p1 p2 Hp Ha. apply tail_match_acceptable in Ha.
      apply Ha, (Hl p1 p2 Hp).
  - intros nm params ret Hne Hnm Hp Hret Hd.
    rewrite re_match_signature, (match_signature_name _ Hne Hnm).
    rewrite (@find_close_first params _ _ Hp (tail_match_arrow Hret Hd)).
    eexists. split; [reflexivity|].
    split; [apply group_name|]. split; [apply group_params|].
    apply group_return.
  - intros nm params Hne Hnm.
    assert (H : re_match signature_regex (nm ++ "(" ++ params ++ ")") <> None).
    { apply (fun h => proj2 (not_iff_compat (unmatched_iff _)) h).
      intros Hf. apply Hf. exists nm, [], params, [].
      split; [reflexivity|]. split; [exact Hne|]. split; [exact Hnm|].
      split; [constructor|]. exists []. split; [constructor | left; reflexivity]. }
    split; [exact H | apply format_signature_matched, H].
Qed.

(** C3, refuted as stated: the parameters of [f(a) -> (B)] end at the first
    closing parenthesis, not at the last, and [f(g(x), y)], whose parameter
    list holds a parenthesized part, matches and is taken apart. *)
Lemma greedy_params_counterexample :
  (exists m, re_match signature_regex "f(a) -> (B)" = Some m
             /\ group m 2 = Some (list_ascii_of_string "a")
             /\ group m 4 = Some (list_ascii_of_string "(B)"))
  /\ (exists m, re_match signature_regex "f(g(x), y)" = Some m
                /\ group m 2 = Some (list_ascii_of_string "g(x), y"))
  /\ format_signature_html "f(g(x), y)" <> verbatim_token "f(g(x), y)".
Proof.
  split; [|split].
  - eexists. split; [vm_compute; reflexivity|]. split; reflexivity.
  - eexists. split; [vm_compute; reflexivity|]. reflexivity.
  - apply format_signature_matched. vm_compute. discriminate.
Qed.

(** ** Escaped interpolation *)






















(** ** The empty page *)

Lemma group_by_category_nil : group_by_category [] = [].
Proof. reflexivity. Qed.

(** C8: a source directory that does not exist gives no entries and the run
    goes on to the end: the page written has the fixed message in the
    sidebar and the fixed placeholder as content, with no section, link or
    card, and counts zero. *)
Theorem missing_directory_page (T : template) :
  scan_source_files None = []
  /\ sidebar_html (group_by_category (scan_source_files None)) = [Lit sidebar_empty]
  /\ content_html (group_by_category (scan_source_files None)) = [Lit empty_state]
  /\ main T None true
     = Done (mkOutput
               (page_head T ++ sidebar_empty ++ page_before_stats T
                ++ "0 functions across 0 categories"
                ++ page_after_stats T ++ empty_state ++ page_tail T)
               (0, 0)).
Proof.
  split; [reflexivity|]. split; [reflexivity|]. split; [reflexivity|].
  unfold main, generate_html. cbn [scan_source_files].
  rewrite group_by_category_nil.
  unfold full_html, sidebar_html, content_html, stats_line, total_entries,
    total_categories, text_of.
  cbn [truthy negb od_values map fold_left length app flat_map piece_text].
  change (str_of_nat 0) with (list_ascii_of_string "0").
  rewrite app_nil_r. reflexivity.
Qed.

(** ** The order of file names *)

Lemma code_injective (x y : ascii) : code x = code y -> x = y.
Proof.
  unfold code. intros H.
  rewrite <- (ascii_nat_embedding x), <- (ascii_nat_embedding y), H.
  reflexivity.
Qed.

Lemma str_ltb_asym (a b : str) : str_ltb a b = true -> str_ltb b a = false.
Proof.
  revert b. induction a as [|x a IH]; intros [|y b]; simpl; try congruence.
  destruct (Nat.ltb_spec (code x) (code y)), (Nat.ltb_spec (code y) (code x)),
    (Nat.eqb_spec (code x) (code y)), (Nat.eqb_spec (code y) (code x));
    simpl; try lia; try congruence; auto.
Qed.

Lemma str_ltb_total (a b : str) :
  str_ltb a b = false -> str_ltb b a = false -> a = b.
Proof.
  revert b. induction a as [|x a IH]; intros [|y b]; simpl; try congruence.
  destruct (Nat.ltb_spec (code x) (code y)), (Nat.ltb_spec (code y) (code x)),
    (Nat.eqb_spec (code x) (code y)), (Nat.eqb_spec (code y) (code x));
    simpl; try lia; try congruence.
  intros H1 H2. f_equal; [apply code_injective; assumption | apply IH; assumption].
Qed.

Lemma str_le_lt_trans (x g y : str) :
  str_ltb g x = false -> str_ltb g y = true -> str_ltb x y = true.
Proof.
  revert g y. induction x as [|cx x IH]; intros [|cg g] [|cy y]; simpl;
    try congruence.
  destruct (Nat.ltb_spec (code cg) (code cx)), (Nat.ltb_spec (code cg) (code cy)),
    (Nat.ltb_spec (code cx) (code cy)),
    (Nat.eqb_spec (code cg) (code cx)), (Nat.eqb_spec (code cg) (code cy)),
    (Nat.eqb_spec (code cx) (code cy));
    simpl; try lia; try congruence.
  apply IH.
Qed.

Lemma name_le_trans (a b c : node) : name_le a b -> name_le b c -> name_le a c.
Proof.
  unfold name_le. intros Hab Hbc.
  destruct (str_ltb (node_name c) (node_name a)) eqn:E; [|reflexivity].
  rewrite (str_le_lt_trans _ _ _ Hbc E) in Hab. discriminate.
Qed.

(** ** The sorted listing *)

Lemma insert_path_perm (f : node) (l : directory) :
  Permutation (insert_path f l) (f :: l).
Proof.
  induction l as [|g l IH]; simpl; [reflexivity|].
  destruct (str_ltb (node_name g) (node_name f)); [|reflexivity].
  rewrite IH. apply perm_swap.
Qed.

Lemma sorted_perm (d : directory) : Permutation (sorted d) d.
Proof.
  induction d as [|f d IH]; simpl; [reflexivity|].
  rewrite insert_path_perm, IH. reflexivity.
Qed.

Lemma insert_path_HdRel (g f : node) (l : directory) :
  HdRel name_le g l -> name_le g f -> HdRel name_le g (insert_path f l).
Proof.
  intros Hl Hf. destruct l as [|h l]; simpl; [constructor; exact Hf|].
  destruct (str_ltb (node_name h) (node_name f)); constructor;
    [inversion Hl; assumption | exact Hf].
Qed.

Lemma insert_path_Sorted (f : node) (l : directory) :
  Sorted name_le l -> Sorted name_le (insert_path f l).
Proof.
  induction 1 as [|g l Hl IH Hg]; simpl; [repeat constructor|].
  destruct (str_ltb (node_name g) (node_name f)) eqn:E.
  - constructor; [exact IH|].
    apply insert_path_HdRel; [exact Hg|]. apply str_ltb_asym, E.
  - constructor; [constructor; assumption|]. constructor. exact E.
Qed.

Lemma sorted_Sorted (d : directory) : StronglySorted name_le (sorted d).
Proof.
  apply Sorted_StronglySorted; [exact name_le_trans|].
  induction d as [|f d IH]; simpl; [constructor|].
  apply insert_path_Sorted, IH.
Qed.

Lemma insert_path_swap (x y : node) (l : directory) :
  node_name x <> node_name y ->
  insert_path x (insert_path y l) = insert_path y (insert_path x l).
Proof.
  intros Hxy.
  assert (Hbase : insert_path x [y] = insert_path y [x]).
  { simpl. destruct (str_ltb (node_name y) (node_name x)) eqn:E1,
             (str_ltb (node_name x) (node_name y)) eqn:E2; try reflexivity.
    - rewrite (str_ltb_asym _ _ E1) in E2. discriminate.
    - exfalso. apply Hxy. apply str_ltb_total; assumption. }
  induction l as [|g l IH]; [exact Hbase|].
  simpl.
  destruct (str_ltb (node_name g) (node_name y)) eqn:Ey,
           (str_ltb (node_name g) (node_name x)) eqn:Ex; simpl;
    rewrite ?Ex, ?Ey.
  - rewrite IH. reflexivity.
  - rewrite (str_le_lt_trans _ _ _ Ex Ey). reflexivity.
  - rewrite (str_le_lt_trans _ _ _ Ey Ex). reflexivity.
  - simpl in Hbase.
    destruct (str_ltb (node_name y) (node_name x)) eqn:E1,
             (str_ltb (node_name x) (node_name y)) eqn:E2; simpl;
      rewrite ?Ex, ?Ey; try reflexivity.
    + rewrite (str_ltb_asym _ _ E1) in E2. discriminate.
    + exfalso. apply Hxy. apply str_ltb_total; assumption.
Qed.

(** The sorted listing does not depend on the order the system lists the
    directory in. *)
Lemma sorted_order_free (d1 d2 : directory) :
  Permutation d1 d2 -> NoDup (map node_name d1) -> sorted d1 = sorted d2.
Proof.
  induction 1 as [|x l l' Hp IH|x y l|l l' l'' H1 IH1 H2 IH2]; intros Hn.
  - reflexivity.
  - simpl. rewrite IH; [reflexivity|]. inversion Hn; assumption.
  - simpl. apply insert_path_swap.
    inversion Hn as [|? ? Hy _]; subst. intros E. apply Hy. left.
    symmetry. exact E.
  - rewrite IH1 by exact Hn. apply IH2.
    eapply Permutation_NoDup; [|exact Hn]. apply Permutation_map, H1.
Qed.

Lemma filter_perm {A} (f : A -> bool) (l l' : list A) :
  Permutation l l' -> Permutation (filter f l) (filter f l').
Proof.
  induction 1 as [|x l l' Hp IH|x y l|l l' l'' H1 IH1 H2 IH2]; simpl.
  - reflexivity.
  - destruct (f x); [constructor|]; exact IH.
  - destruct (f x), (f y); try reflexivity. apply perm_swap.
  - rewrite IH1. exact IH2.
Qed.

Lemma filter_names_NoDup (f : node -> bool) (d : directory) :
  NoDup (map node_name d) -> NoDup (map node_name (filter f d)).
Proof.
  induction d as [|x d IH]; simpl; [auto|].
  intros H. inversion H as [|? ? Hx Hd]; subst.
  destruct (f x); simpl; [|auto].
  constructor; [|auto]. intros Hin. apply Hx.
  apply in_map_iff in Hin. destruct Hin as [y [Hy Hin]].
  apply filter_In in Hin. apply in_map_iff. exists y. tauto.
Qed.

(** ** The source scanner *)

Lemma extend_entries {A B} (h : A -> list B) (l : list A) (acc : list B) :
  fold_left (fun entries x => entries ++ h x) l acc = acc ++ flat_map h l.
Proof.
  revert acc. induction l as [|x l IH]; simpl; intros acc.
  - rewrite app_nil_r. reflexivity.
  - rewrite IH, app_assoc. reflexivity.
Qed.

Lemma scan_flat_map (d : directory) :
  scan_source_files (Some d) = flat_map file_entries (sorted (glob_c d)).
Proof.
  unfold scan_source_files.
  rewrite <- (app_nil_l (flat_map file_entries _)), <- extend_entries.
  generalize (@nil DocEntry).
  induction (sorted (glob_c d)) as [|f l IH]; intros acc; [reflexivity|].
  simpl. rewrite IH. f_equal.
  destruct f as [n [text|]|n ch]; simpl; rewrite ?app_nil_r; reflexivity.
Qed.

Lemma node_name_prune (f : node) : node_name (prune f) = node_name f.
Proof. destruct f; reflexivity. Qed.

Lemma file_entries_prune (f : node) : file_entries (prune f) = file_entries f.
Proof. destruct f; reflexivity. Qed.

Lemma insert_path_prune (f : node) (l : directory) :
  insert_path (prune f) (map prune l) = map prune (insert_path f l).
Proof.
  induction l as [|g l IH]; simpl; [reflexivity|].
  rewrite !node_name_prune.
  destruct (str_ltb (node_name g) (node_name f)); simpl; [rewrite IH|];
    reflexivity.
Qed.

Lemma sorted_prune (d : directory) : sorted (map prune d) = map prune (sorted d).
Proof.
  induction d as [|f d IH]; simpl; [reflexivity|].
  rewrite IH. apply insert_path_prune.
Qed.

Lemma glob_c_prune (d : directory) : glob_c (map prune d) = map prune (glob_c d).
Proof.
  unfold glob_c. induction d as [|f d IH]; [reflexivity|].
  cbn [map filter]. rewrite node_name_prune, IH.
  destruct (endswith ".c" (node_name f)); reflexivity.
Qed.

(** C10: the entries the scanner returns are those of the readable files
    among the entries of the directory itself whose name ends in [.c], file
    after file in the order of the names; what lies inside a sub-directory
    has no part in the result. *)
Theorem scan_sorted_c_files (d : directory) :
  scan_source_files (Some d) = flat_map file_entries (sorted (glob_c d))
  /\ Permutation (sorted (glob_c d))
                 (filter (fun f => endswith ".c" (node_name f)) d)
  /\ StronglySorted name_le (sorted (glob_c d))
  /\ (forall f, In f (sorted (glob_c d))
                <-> In f d /\ endswith ".c" (node_name f) = true)
  /\ scan_source_files (Some (map prune d)) = scan_source_files (Some d).
Proof.
  split; [apply scan_flat_map|].
  split; [apply sorted_perm|].
  split; [apply sorted_Sorted|].
  split.
  - intros f. split; intros H.
    + apply (Permutation_in f (sorted_perm _)) in H.
      apply filter_In in H. exact H.
    + apply (Permutation_in f (Permutation_sym (sorted_perm _))).
      apply filter_In. exact H.
  - rewrite !scan_flat_map, glob_c_prune, sorted_prune.
    rewrite flat_map_concat_map, map_map, <- flat_map_concat_map.
    apply flat_map_ext. apply file_entries_prune.
Qed.

(** C6: two runs on the same files give the same result, the page written
    and the counts returned, in whatever order the system lists the
    directory. *)
Theorem pipeline_deterministic (T : template) (d1 d2 : directory) (writable : bool) :
  NoDup (map node_name d1) -> Permutation d1 d2 ->
  scan_source_files (Some d1) = scan_source_files (Some d2)
  /\ main T (Some d1) writable = main T (Some d2) writable.
Proof.
  intros Hn Hp.
  assert (E : scan_source_files (Some d1) = scan_source_files (Some d2)).
  { rewrite !scan_flat_map. f_equal. apply sorted_order_free.
    - apply filter_perm, Hp.
    - apply filter_names_NoDup, Hn. }
  split; [exact E|]. unfold main. rewrite E. reflexivity.
Qed.

(** C6, at an input: a directory of two source files and a sub-directory,
    listed in one order and in the reverse order. *)
Lemma pipeline_deterministic_witness :
  let T := mkTemplate "<html><nav>" "</nav><p>" "</p><main>" "</main></html>" in
  let d := [ File "b.c" (Some (list_ascii_of_string "/// @method String.len() -> Int"));
             Folder "vendor" [ File "x.c" None ];
             File "a.c" (Some (list_ascii_of_string "/// @builtin print(value: Any)")) ] in
  main T (Some d) true = main T (Some (rev d)) true.
Proof.
  intros T d.
  refine (proj2 (@pipeline_deterministic T d (rev d) true _ _)).
  - unfold d. cbn [map node_name].
    repeat constructor; cbn [In]; intros H;
      repeat (destruct H as [H|H]; [discriminate|]); exact H.
  - apply Permutation_rev.
Defined.

(** * Further properties *)

(** ** The categorizer keeps every entry *)

Lemma concat_values_filter (g : odict (list DocEntry)) :
  concat (od_values (filter (fun kv => truthy (snd kv)) g)) = concat (od_values g).
Proof.
  induction g as [|[k v] g IH]; [reflexivity|].
  cbn [filter snd]. destruct v as [|e v]; cbn [truthy od_values map concat snd];
    unfold od_values in IH; rewrite IH; reflexivity.
Qed.

Lemma concat_values_append (k : str) (l : list DocEntry) (e : DocEntry)
      (g : odict (list DocEntry)) :
  od_get k g = Some l ->
  Permutation (concat (od_values (od_set k (l ++ [e]) g)))
              (e :: concat (od_values g)).
Proof.
  induction g as [|[k0 v0] g IH]; [discriminate|].
  cbn [od_get od_set]. destruct (str_eqb k k0).
  - intros H. injection H as <-. cbn [od_values map concat snd].
    rewrite <- app_assoc. cbn [app].
    symmetry. apply Permutation_middle.
  - intros H. cbn [od_values map concat snd].
    rewrite (IH H). symmetry. apply Permutation_middle.
Qed.

Lemma concat_values_place (g : odict (list DocEntry)) (e : DocEntry) :
  Permutation (concat (od_values (place_entry g e))) (e :: concat (od_values g)).
Proof.
  unfold place_entry, od_append.
  destruct (od_mem (category_key e) g) eqn:Em.
  - unfold od_mem in Em.
    destruct (od_get (category_key e) g) as [l|] eqn:E; [|discriminate].
    apply concat_values_append, E.
  - rewrite od_get_set, str_eqb_refl.
    rewrite (od_set_fresh (category_key e) [] g Em).
    assert (Hg : od_get (category_key e) (g ++ [(category_key e, [])]) = Some [])
      by (rewrite <- (od_set_fresh (category_key e) [] g Em), od_get_set,
            str_eqb_refl; reflexivity).
    rewrite (@concat_values_append _ _ e _ Hg).
    unfold od_values. rewrite map_app, concat_app. cbn [map concat snd app].
    rewrite app_nil_r. reflexivity.
Qed.

Lemma concat_values_fold (entries : list DocEntry) (g : odict (list DocEntry)) :
  Permutation (concat (od_values (fold_left place_entry entries g)))
              (concat (od_values g) ++ entries).
Proof.
  revert g. induction entries as [|e entries IH]; intros g; cbn [fold_left].
  - rewrite app_nil_r. reflexivity.
  - rewrite IH, concat_values_place. cbn [app]. apply Permutation_middle.
Qed.

Lemma length_concat_values (g : odict (list DocEntry)) :
  total_entries g = length (concat (od_values g)).
Proof.
  rewrite total_entries_sum. induction (od_values g) as [|v vs IH];
    [reflexivity|].
  cbn [map list_sum concat]. rewrite length_app, <- IH. reflexivity.
Qed.

Lemma grouped_entries_perm (entries : list DocEntry) :
  Permutation (concat (od_values (group_by_category entries))) entries.
Proof.
  unfold group_by_category. rewrite concat_values_filter, concat_values_fold.
  reflexivity.
Qed.

Lemma grouped_entries_total (entries : list DocEntry) :
  total_entries (group_by_category entries) = length entries.
Proof.
  rewrite length_concat_values. apply Permutation_length, grouped_entries_perm.
Qed.

(** X1: grouping neither loses nor repeats an entry: the lists of the
    result, taken together, are a rearrangement of the input, so the entry
    count of the footer is the number of entries grouped. *)
Theorem group_by_category_keeps_entries (entries : list DocEntry) :
  Permutation (concat (od_values (group_by_category entries))) entries
  /\ total_entries (group_by_category entries) = length entries.
Proof.
  split; [apply grouped_entries_perm | apply grouped_entries_total].
Qed.

(** ** The order of the categories *)

Lemma od_mem_keys {V} (k : str) (g : odict V) :
  od_mem k g = existsb (str_eqb k) (od_keys g).
Proof.
  unfold od_mem. induction g as [|[k0 v0] g IH]; [reflexivity|].
  cbn [od_get od_keys map fst existsb]. destruct (str_eqb k k0); [reflexivity|].
  exact IH.
Qed.

Lemma od_keys_place (g : odict (list DocEntry)) (e : DocEntry) :
  od_keys (place_entry g e)
  = if od_mem (category_key e) g then od_keys g
    else od_keys g ++ [category_key e].
Proof.
  unfold place_entry, od_append.
  destruct (od_mem (category_key e) g) eqn:Em.
  - pose proof Em as Em'. unfold od_mem in Em'.
    destruct (od_get (category_key e) g) as [l|]; [|discriminate].
    rewrite od_keys_set, Em. reflexivity.
  - rewrite od_get_set, str_eqb_refl, od_keys_set.
    assert (H : od_mem (category_key e) (od_set (category_key e) [] g) = true)
      by (unfold od_mem; rewrite od_get_set, str_eqb_refl; reflexivity).
    rewrite H, od_keys_set, Em. reflexivity.
Qed.

Lemma od_keys_fold (entries : list DocEntry) (g : odict (list DocEntry)) :
  od_keys (fold_left place_entry entries g)
  = od_keys g ++ first_occurrences (od_keys g) (map category_key entries).
Proof.
  revert g. induction entries as [|e entries IH]; intros g;
    cbn [fold_left map first_occurrences].
  - rewrite app_nil_r. reflexivity.
  - rewrite IH, od_keys_place, <- od_mem_keys.
    destruct (od_mem (category_key e) g); [reflexivity|].
    rewrite <- app_assoc. reflexivity.
Qed.

Lemma od_keys_filter {V} (f : V -> bool) (g : odict V) :
  NoDup (od_keys g) ->
  od_keys (filter (fun kv => f (snd kv)) g)
  = filter (fun k => match od_get k g with
                     | Some v => f v
                     | None => false
                     end) (od_keys g).
Proof.
  induction g as [|[k0 v0] g IH]; [reflexivity|].
  intros H. inversion H as [|? ? Hk Hg]; subst.
  cbn [filter od_keys map fst snd od_get]. rewrite str_eqb_refl.
  assert (E : filter (fun k => match (if str_eqb k k0 then Some v0 else od_get k g) with
                               | Some v => f v
                               | None => false
                               end) (map fst g)
              = filter (fun k => match od_get k g with
                                 | Some v => f v
                                 | None => false
                                 end) (map fst g)).
  { apply filter_ext_in. intros k Hin.
    destruct (str_eqb k k0) eqn:E; [|reflexivity].
    apply str_eqb_eq in E. subst. contradiction. }
  rewrite E. destruct (f v0); cbn [od_keys map fst]; unfold od_keys in IH;
    rewrite (IH Hg); reflexivity.
Qed.

Lemma first_occurrences_new (seen ks : list str) (k : str) :
  In k (first_occurrences seen ks) -> In k ks.
Proof.
  revert seen. induction ks as [|k0 ks IH]; intros seen; [contradiction|].
  cbn [first_occurrences]. destruct (existsb (str_eqb k0) seen).
  - intros H. right. exact (IH _ H).
  - intros [H|H]; [left; exact H | right; exact (IH _ H)].
Qed.

Lemma first_occurrences_fresh (seen ks : list str) (k : str) :
  In k (first_occurrences seen ks) -> ~ In k seen.
Proof.
  revert seen. induction ks as [|k0 ks IH]; intros seen; [contradiction|].
  cbn [first_occurrences]. destruct (existsb (str_eqb k0) seen) eqn:E.
  - apply IH.
  - intros [<-|H] Hin.
    + assert (Ht : existsb (str_eqb k0) seen = true).
      { apply existsb_exists. exists k0. split; [exact Hin | apply str_eqb_refl]. }
      congruence.
    + apply (IH _ H). apply in_or_app. left. exact Hin.
Qed.

Lemma initial_groups_keys :
  od_keys (fold_left (fun (g : odict (list DocEntry)) cat => od_set cat [] g)
                     CATEGORY_ORDER [])
  = CATEGORY_ORDER.
Proof. reflexivity. Qed.

Lemma grouped_keys (entries : list DocEntry) :
  od_keys (group_by_category entries)
  = filter (fun k => truthy (entries_in k entries)) CATEGORY_ORDER
    ++ first_occurrences CATEGORY_ORDER (map category_key entries).
Proof.
  unfold group_by_category.
  destruct (grouped_all entries) as [Hn Hg]. cbv zeta in Hn, Hg.
  rewrite (@od_keys_filter _ (@truthy DocEntry) _ Hn).
  erewrite filter_ext.
  - rewrite od_keys_fold, initial_groups_keys, filter_app. f_equal.
    apply forallb_filter_id. apply forallb_forall. intros k Hk.
    apply truthy_entries_in. apply first_occurrences_new in Hk.
    apply in_map_iff in Hk. destruct Hk as [e [He Hin]]. exists e. auto.
  - intros k. specialize (Hg k). cbv beta.
    match goal with |- match ?x with _ => _ end = _ => destruct x as [l|] end;
      rewrite Hg; reflexivity.
Qed.

(** X2: the keys of the result come in a fixed order: first the categories
    of the taxonomy that hold an entry, in the order of the taxonomy, then
    the categories outside it, in the order in which the entries first name
    them. *)
Theorem group_by_category_key_order (entries : list DocEntry) :
  od_keys (group_by_category entries)
  = filter (fun k => truthy (entries_in k entries)) CATEGORY_ORDER
    ++ first_occurrences CATEGORY_ORDER (map category_key entries)
  /\ (forall k, In k (first_occurrences CATEGORY_ORDER (map category_key entries))
                 -> ~ In k CATEGORY_ORDER).
Proof.
  split; [apply grouped_keys|].
  intros k. apply first_occurrences_fresh.
Qed.

Lemma nonempty_lists_total (g : odict (list DocEntry)) :
  Forall (fun kv => truthy (snd kv) = true) g -> length g <= total_entries g.
Proof.
  rewrite total_entries_sum. unfold od_values.
  induction 1 as [|[k v] g Hv Hg IH]; [reflexivity|].
  destruct v as [|e v]; [discriminate|].
  unfold list_sum in *. cbn [map fold_right length snd] in *. lia.
Qed.

(** X3: a run that can write its output ends normally, with the number of
    entries scanned as the first count, shown in a category or not, and the
    number of categories holding an entry as the second, which is never the
    larger one; a run that cannot write ends in a fault. *)
Theorem main_counts (T : template) (src_dir : option directory) :
  let entries := scan_source_files src_dir in
  let groups := group_by_category entries in
  main T src_dir true
  = Done (mkOutput (text_of (full_html T groups))
                   (length entries, length (od_keys groups)))
  /\ length (od_keys groups) <= length entries
  /\ main T src_dir false = Fault.
Proof.
  intros entries groups.
  assert (Hk : length (od_keys groups) = total_categories groups)
    by (unfold od_keys, total_categories; apply length_map).
  split; [|split].
  - unfold main, generate_html. fold entries. fold groups.
    rewrite Hk. unfold groups at 2. rewrite grouped_entries_total. reflexivity.
  - rewrite Hk, <- (grouped_entries_total entries). fold groups.
    apply nonempty_lists_total. unfold groups, group_by_category.
    apply Forall_forall. intros kv Hin. apply filter_In in Hin. tauto.
  - reflexivity.
Qed.

(** ** What the page shows *)

Section Counting.
Variable is_open : piece -> bool.

Let count (m : markup) : nat := length (filter is_open m).

Lemma count_app (a b : markup) : count (a ++ b) = count a + count b.
Proof. unfold count. rewrite filter_app, length_app. reflexivity. Qed.

Lemma count_flat_map {A} (f : A -> markup) (l : list A) :
  count (flat_map f l) = list_sum (map (fun x => count (f x)) l).
Proof.
  induction l as [|x l IH]; [reflexivity|].
  cbn [flat_map map]. rewrite count_app, IH. reflexivity.
Qed.

Lemma count_join (sep : markup) (parts : list markup) :
  count sep = 0 -> Forall (fun p => count p = 0) parts ->
  count (join_markup sep parts) = 0.
Proof.
  intros Hs H. induction H as [|p ps Hp Hps IH]; [reflexivity|].
  destruct ps as [|q ps]; [exact Hp|].
  change (join_markup sep (p :: q :: ps)) with (p ++ sep ++ join_markup sep (q :: ps)).
  rewrite !count_app, Hp, Hs, IH. reflexivity.
Qed.
End Counting.

Lemma cards_app (a b : markup) : cards (a ++ b) = cards a + cards b.
Proof. apply count_app. Qed.

Lemma links_app (a b : markup) : links (a ++ b) = links a + links b.
Proof. apply count_app. Qed.

Lemma cards_format_param (param : str) : cards (format_param param) = 0.
Proof. unfold format_param. destruct (find ":" param); reflexivity. Qed.

Lemma cards_params (l : list str) :
  cards (join_markup [Lit ("<span class=" ++ dq ++ "op" ++ dq ++ ">, </span>")]
                     (map (fun p => format_param (strip p)) l)) = 0.
Proof.
  apply count_join; [reflexivity|].
  apply Forall_map, Forall_forall. intros p _. apply cards_format_param.
Qed.

Lemma cards_format_signature (sig : str) : cards (format_signature_html sig) = 0.
Proof.
  unfold format_signature_html, verbatim_token.
  destruct (re_match signature_regex sig) as [m|]; [|reflexivity].
  cbv zeta. rewrite !cards_app.
  destruct (truthy (strip (group_or_empty m 2))),
           (truthy (strip (group_or_empty m 4)));
    rewrite ?cards_params; reflexivity.
Qed.

Lemma cards_format_example (example : str) : cards (format_example_html example) = 0.
Proof. unfold format_example_html. destruct (find "//" example); reflexivity. Qed.

Lemma cards_entry_card (entry : DocEntry) : cards (entry_card entry) = 1.
Proof.
  unfold entry_card. rewrite !cards_app, cards_format_signature.
  assert (He : cards (flat_map example_block (examples entry)) = 0).
  { unfold cards. rewrite count_flat_map.
    induction (examples entry) as [|ex exs IH]; [reflexivity|].
    cbn [map list_sum fold_right]. unfold list_sum in IH. rewrite IH.
    unfold example_block.
    change (length (filter is_card_open
              ([Lit "          <pre><code>"] ++ format_example_html ex
               ++ [Lit ("</code></pre>" ++ nl)])))
      with (cards ([Lit "          <pre><code>"] ++ format_example_html ex
                   ++ [Lit ("</code></pre>" ++ nl)])).
    rewrite !cards_app, cards_format_example. reflexivity. }
  destruct (truthy (description entry)), (truthy (examples entry));
    rewrite ?cards_app, ?He; reflexivity.
Qed.

Lemma list_sum_ones {A} (l : list A) : list_sum (map (fun _ => 1) l) = length l.
Proof. induction l as [|x l IH]; [reflexivity|]. cbn. f_equal. exact IH. Qed.

Lemma cards_category_block (groups : odict (list DocEntry)) (section_name cat : str) :
  cards (category_block groups section_name cat) = length (entries_of groups cat).
Proof.
  unfold category_block. cbv zeta. rewrite !cards_app.
  unfold cards at 2. rewrite count_flat_map.
  rewrite (map_ext _ (fun _ => 1)) by (intros e; apply cards_entry_card).
  rewrite list_sum_ones.
  change (cards [Lit ("    </div>" ++ nl)]) with 0.
  match goal with |- cards ?h + _ = _ => change (cards h) with 0 end.
  lia.
Qed.

Lemma list_sum_filter {A} (f : A -> nat) (p : A -> bool) (l : list A) :
  (forall x, p x = false -> f x = 0) ->
  list_sum (map f (filter p l)) = list_sum (map f l).
Proof.
  intros H. induction l as [|x l IH]; [reflexivity|].
  cbn [filter map]. destruct (p x) eqn:E.
  - cbn [map]. unfold list_sum in *. cbn [fold_right]. rewrite IH. reflexivity.
  - unfold list_sum in *. cbn [fold_right]. rewrite IH, (H x E). reflexivity.
Qed.

Lemma list_sum_flat_map {A B} (f : B -> nat) (h : A -> list B) (l : list A) :
  list_sum (map (fun x => list_sum (map f (h x))) l)
  = list_sum (map f (flat_map h l)).
Proof.
  induction l as [|x l IH]; [reflexivity|].
  cbn [map flat_map]. rewrite map_app, list_sum_app, <- IH. reflexivity.
Qed.

Lemma entries_of_absent (groups : odict (list DocEntry)) (c : str) :
  od_mem c groups = false -> length (entries_of groups c) = 0.
Proof.
  unfold od_mem, entries_of. destruct (od_get c groups); [discriminate|].
  reflexivity.
Qed.

Lemma cards_content_section (groups : odict (list DocEntry)) (section : str * list str) :
  cards (content_section groups section)
  = list_sum (map (fun c => length (entries_of groups c)) (snd section)).
Proof.
  unfold content_section. cbv zeta.
  rewrite <- (list_sum_filter (fun c => length (entries_of groups c))
                              (fun c => od_mem c groups) (snd section))
    by (intros c; apply entries_of_absent).
  fold (active_cats groups (snd section)).
  destruct (active_cats groups (snd section)) as [|c cs] eqn:E; [reflexivity|].
  cbn [truthy negb]. unfold cards. rewrite count_flat_map.
  apply f_equal, map_ext. intros c'. apply cards_category_block.
Qed.

Lemma category_order_concat :
  CATEGORY_ORDER = flat_map (@snd str (list str)) SECTION_GROUPS.
Proof. reflexivity. Qed.

Lemma cards_content_walk (groups : odict (list DocEntry)) :
  cards (content_walk groups)
  = list_sum (map (fun c => length (entries_of groups c)) CATEGORY_ORDER).
Proof.
  unfold content_walk, cards. rewrite count_flat_map.
  rewrite (map_ext _ (fun section =>
                        list_sum (map (fun c => length (entries_of groups c))
                                      (snd section))))
    by (intros section; apply cards_content_section).
  rewrite list_sum_flat_map, <- category_order_concat. reflexivity.
Qed.

Lemma category_order_NoDup : NoDup CATEGORY_ORDER.
Proof.
  rewrite <- initial_groups_keys.
  apply (@init_groups_empty CATEGORY_ORDER [] (NoDup_nil _)). discriminate.
Qed.

Lemma key_count (k : str) (l : list str) :
  NoDup l ->
  list_sum (map (fun c => if str_eqb k c then 1 else 0) l)
  = if existsb (str_eqb k) l then 1 else 0.
Proof.
  induction 1 as [|c l Hc Hl IH]; [reflexivity|].
  cbn [map existsb]. unfold list_sum in *. cbn [fold_right]. rewrite IH.
  destruct (str_eqb k c) eqn:E; [|reflexivity].
  apply str_eqb_eq in E. subst c.
  destruct (existsb (str_eqb k) l) eqn:Ex; [|reflexivity].
  apply existsb_exists in Ex. destruct Ex as [x [Hx Ex]].
  apply str_eqb_eq in Ex. subst x. contradiction.
Qed.

Lemma entries_in_count (entries : list DocEntry) (l : list str) :
  NoDup l ->
  list_sum (map (fun c => length (entries_in c entries)) l)
  = length (filter (fun e => existsb (str_eqb (category_key e)) l) entries).
Proof.
  intros Hl. induction entries as [|e entries IH].
  - cbn [entries_in filter length]. induction l as [|c l IHl]; [reflexivity|].
    inversion Hl; subst. cbn. apply IHl. assumption.
  - cbn [filter]. 
    rewrite (map_ext _ (fun c => (if str_eqb (category_key e) c then 1 else 0)
                                 + length (entries_in c entries))).
    + assert (Hs : forall (f g : str -> nat) (l : list str),
                 list_sum (map (fun c => f c + g c) l)
                 = list_sum (map f l) + list_sum (map g l)).
      { intros f g l0. induction l0 as [|c l0 IH0]; [reflexivity|].
        cbn [map]. unfold list_sum in *. cbn [fold_right]. rewrite IH0. lia. }
      rewrite Hs, IH, (key_count _ Hl).
      destruct (existsb (str_eqb (category_key e)) l); reflexivity.
    + intros c. unfold entries_in. cbn [filter].
      destruct (str_eqb (category_key e) c); reflexivity.
Qed.

Lemma entries_of_grouped (entries : list DocEntry) (c : str) :
  entries_of (group_by_category entries) c = entries_in c entries.
Proof.
  unfold entries_of. rewrite group_by_category_get.
  destruct (entries_in c entries); reflexivity.
Qed.

Lemma grouped_empty (entries : list DocEntry) :
  group_by_category entries = [] <-> entries = [].
Proof.
  split.
  - intros H. pose proof (grouped_entries_total entries) as Ht.
    rewrite H in Ht. destruct entries; [reflexivity | discriminate].
  - intros ->. reflexivity.
Qed.

Lemma od_mem_grouped (entries : list DocEntry) (c : str) :
  od_mem c (group_by_category entries) = truthy (entries_in c entries).
Proof.
  unfold od_mem. rewrite group_by_category_get.
  destruct (truthy (entries_in c entries)); reflexivity.
Qed.

Lemma active_cats_grouped (entries : list DocEntry) (cats : list str) :
  active_cats (group_by_category entries) cats = holding entries cats.
Proof.
  unfold active_cats, holding. apply filter_ext. intros c. apply od_mem_grouped.
Qed.

Lemma category_block_grouped (entries : list DocEntry) (section_name cat : str) :
  category_block (group_by_category entries) section_name cat
  = block_open section_name cat
    ++ flat_map entry_card (entries_in cat entries) ++ block_close.
Proof. unfold category_block. cbv zeta. rewrite entries_of_grouped. reflexivity. Qed.

Lemma content_walk_grouped (entries : list DocEntry) :
  content_walk (group_by_category entries)
  = flat_map
      (fun section : str * list str =>
         flat_map (fun cat => block_open (fst section) cat
                              ++ flat_map entry_card (entries_in cat entries)
                              ++ block_close)
                  (holding entries (snd section)))
      SECTION_GROUPS.
Proof.
  unfold content_walk. apply flat_map_ext. intros section.
  unfold content_section. cbv zeta. rewrite active_cats_grouped.
  destruct (holding entries (snd section)) as [|c cs]; [reflexivity|].
  cbn [truthy negb]. apply flat_map_ext. intros cat.
  apply category_block_grouped.
Qed.

Lemma filter_either {A} (p q : A -> bool) (l : list A) :
  (forall x, p x = true -> q x = false) ->
  Permutation (filter (fun x => p x || q x) l) (filter p l ++ filter q l).
Proof.
  intros H. induction l as [|x l IH]; [reflexivity|].
  cbn [filter]. destruct (p x) eqn:Ep; cbn [orb].
  - rewrite (H x Ep). cbn [app]. constructor. exact IH.
  - destruct (q x).
    + rewrite IH. apply Permutation_middle.
    + exact IH.
Qed.

Lemma entries_of_categories (entries : list DocEntry) (cats : list str) :
  NoDup cats ->
  Permutation (flat_map (fun cat => entries_in cat entries) cats)
              (filter (fun e => existsb (str_eqb (category_key e)) cats) entries).
Proof.
  induction 1 as [|c cats Hc Hn IH].
  - cbn [flat_map existsb]. induction entries as [|e entries IHe];
      [reflexivity | exact IHe].
  - cbn [flat_map existsb]. rewrite IH. symmetry.
    apply (filter_either (fun e => str_eqb (category_key e) c)
                         (fun e => existsb (str_eqb (category_key e)) cats)).
    intros e He. apply str_eqb_eq in He.
    destruct (existsb (str_eqb (category_key e)) cats) eqn:Ex; [|reflexivity].
    apply existsb_exists in Ex. destruct Ex as [k [Hk Ek]].
    apply str_eqb_eq in Ek. subst. contradiction.
Qed.

(** X4: after the grouping, the content of the page is, for each section
    and each of its categories that holds an entry, in the order of the
    taxonomy, the block of the category with the cards of exactly the
    entries of that category, in scan order; the entries so shown are,
    each once, the entries whose category is in the taxonomy, so the content
    has one card for each of these and none for the others, and with no
    entries it is the placeholder. *)
Theorem cards_of_declared_entries (entries : list DocEntry) :
  cards (content_html (group_by_category entries))
  = length (filter (fun e => declared (category_key e)) entries)
  /\ content_html (group_by_category entries)
     = match entries with
       | [] => [Lit empty_state]
       | _ :: _ =>
           flat_map
             (fun section : str * list str =>
                flat_map (fun cat => block_open (fst section) cat
                                     ++ flat_map entry_card (entries_in cat entries)
                                     ++ block_close)
                         (holding entries (snd section)))
             SECTION_GROUPS
       end
  /\ Permutation (flat_map (fun cat => entries_in cat entries) CATEGORY_ORDER)
                 (filter (fun e => declared (category_key e)) entries).
Proof.
  split; [|split].
  - unfold content_html.
    destruct (group_by_category entries) as [|kv g] eqn:E.
    + apply grouped_empty in E. subst. reflexivity.
    + cbn [truthy negb]. rewrite <- E, cards_content_walk.
      rewrite (map_ext _ (fun c => length (entries_in c entries)))
        by (intros c; rewrite entries_of_grouped; reflexivity).
      apply entries_in_count, category_order_NoDup.
  - unfold content_html.
    destruct (group_by_category entries) as [|kv g] eqn:E.
    + apply grouped_empty in E. subst. reflexivity.
    + cbn [truthy negb]. rewrite <- E, content_walk_grouped.
      destruct entries as [|e entries]; [discriminate | reflexivity].
  - apply entries_of_categories, category_order_NoDup.
Qed.

Lemma links_sidebar_link (groups : odict (list DocEntry)) (cat : str) :
  links (sidebar_link groups cat) = 1.
Proof. reflexivity. Qed.

Lemma links_sidebar_section (groups : odict (list DocEntry)) (section : str * list str) :
  links (sidebar_section groups section) = length (active_cats groups (snd section)).
Proof.
  unfold sidebar_section. cbv zeta.
  destruct (active_cats groups (snd section)) as [|c cs] eqn:E; [reflexivity|].
  cbn [truthy negb]. rewrite !links_app. unfold links at 2.
  rewrite count_flat_map.
  rewrite (map_ext _ (fun _ => 1)) by (intros c'; apply links_sidebar_link).
  rewrite list_sum_ones.
  change (links [Lit ("      </div>" ++ nl)]) with 0.
  match goal with |- links ?h + _ = _ => change (links h) with 0 end.
  lia.
Qed.

Lemma links_sidebar_walk (groups : odict (list DocEntry)) :
  links (sidebar_walk groups) = length (active_cats groups CATEGORY_ORDER).
Proof.
  unfold sidebar_walk, links. rewrite count_flat_map.
  rewrite (map_ext _ (fun section => length (active_cats groups (snd section))))
    by (intros section; apply links_sidebar_section).
  rewrite category_order_concat. unfold active_cats.
  induction SECTION_GROUPS as [|section l IH]; [reflexivity|].
  cbn [map flat_map]. rewrite filter_app, length_app, <- IH. reflexivity.
Qed.

Lemma sidebar_link_grouped (entries : list DocEntry) (cat : str) :
  sidebar_link (group_by_category entries) cat
  = category_link cat (length (entries_in cat entries)).
Proof. unfold sidebar_link. cbv zeta. rewrite entries_of_grouped. reflexivity. Qed.

Lemma sidebar_walk_grouped (entries : list DocEntry) :
  sidebar_walk (group_by_category entries)
  = flat_map
      (fun section : str * list str =>
         if truthy (holding entries (snd section))
         then section_open (fst section)
              ++ flat_map (fun cat => category_link cat (length (entries_in cat entries)))
                          (holding entries (snd section))
              ++ section_close
         else [])
      SECTION_GROUPS.
Proof.
  unfold sidebar_walk. apply flat_map_ext. intros section.
  unfold sidebar_section. cbv zeta. rewrite active_cats_grouped.
  destruct (truthy (holding entries (snd section))); [|reflexivity].
  cbn [negb]. unfold section_open, section_close. do 2 f_equal.
  apply flat_map_ext. intros cat. apply sidebar_link_grouped.
Qed.

(** X5: after the grouping, the sidebar is, for each section that has a
    category holding an entry, in the order of the taxonomy, the heading of
    the section and one link for each such category of the section, in
    order, each link showing the number of entries of its category; so the
    sidebar has exactly one link for each category of the taxonomy that
    holds an entry, and with no entries it is the fixed message. *)
Theorem links_of_declared_categories (entries : list DocEntry) :
  links (sidebar_html (group_by_category entries))
  = length (filter (fun c => truthy (entries_in c entries)) CATEGORY_ORDER)
  /\ (forall c, In (Val (str_of_nat (length (entries_in c entries))))
                   (sidebar_link (group_by_category entries) c))
  /\ sidebar_html (group_by_category entries)
     = match entries with
       | [] => [Lit sidebar_empty]
       | _ :: _ =>
           flat_map
             (fun section : str * list str =>
                if truthy (holding entries (snd section))
                then section_open (fst section)
                     ++ flat_map (fun cat =>
                                    category_link cat (length (entries_in cat entries)))
                                 (holding entries (snd section))
                     ++ section_close
                else [])
             SECTION_GROUPS
       end.
Proof.
  split; [|split].
  - unfold sidebar_html.
    destruct (group_by_category entries) as [|kv g] eqn:E.
    + apply grouped_empty in E. subst. reflexivity.
    + cbn [truthy negb]. rewrite <- E, links_sidebar_walk. unfold active_cats.
      f_equal. apply filter_ext. intros c. apply od_mem_grouped.
  - intros c. unfold sidebar_link. cbv zeta. rewrite entries_of_grouped.
    cbn [In]. tauto.
  - unfold sidebar_html.
    destruct (group_by_category entries) as [|kv g] eqn:E.
    + apply grouped_empty in E. subst. reflexivity.
    + cbn [truthy negb]. rewrite <- E, sidebar_walk_grouped.
      destruct entries as [|e entries]; [discriminate | reflexivity].
Qed.

Lemma walks_of_undeclared (groups : odict (list DocEntry)) :
  (forall c, In c CATEGORY_ORDER -> od_get c groups = None) ->
  sidebar_walk groups = [] /\ content_walk groups = [].
Proof.
  intros H. split.
  - rewrite (@sidebar_walk_agree groups []); [reflexivity|].
    intros c Hc. rewrite (H c Hc). reflexivity.
  - rewrite (@content_walk_agree groups []); [reflexivity|].
    intros c Hc. rewrite (H c Hc). reflexivity.
Qed.

Lemma declared_In (k : str) : declared k = true <-> In k CATEGORY_ORDER.
Proof.
  unfold declared. rewrite existsb_exists. split.
  - intros [x [Hx E]]. apply str_eqb_eq in E. subst. exact Hx.
  - intros H. exists k. split; [exact H | apply str_eqb_refl].
Qed.

(** X6: when there are entries and none has a category of the taxonomy,
    the page has neither the placeholder nor any section: its sidebar and
    its content are empty, while the footer still counts the entries. *)
Theorem undeclared_only_page (entries : list DocEntry) :
  entries <> [] ->
  (forall e, In e entries -> declared (category_key e) = false) ->
  sidebar_html (group_by_category entries) = []
  /\ content_html (group_by_category entries) = []
  /\ total_entries (group_by_category entries) = length entries
  /\ 0 < total_categories (group_by_category entries).
Proof.
  intros Hne Hu.
  assert (Hg : group_by_category entries <> [])
    by (intros E; apply grouped_empty in E; contradiction).
  assert (Hw : sidebar_walk (group_by_category entries) = []
               /\ content_walk (group_by_category entries) = []).
  { apply walks_of_undeclared. intros c Hc. rewrite group_by_category_get.
    destruct (truthy (entries_in c entries)) eqn:Et; [|reflexivity].
    apply truthy_entries_in in Et. destruct Et as [e [He Hk]].
    apply declared_In in Hc. rewrite <- Hk, (Hu e He) in Hc. discriminate. }
  unfold sidebar_html, content_html, total_categories.
  destruct (group_by_category entries) as [|kv g] eqn:E; [congruence|].
  cbn [truthy negb length]. rewrite <- E at 3.
  split; [tauto|]. split; [tauto|]. split; [apply grouped_entries_total | lia].
Qed.

(** X6, at an input: one entry, in a category the taxonomy does not have. *)
Lemma undeclared_only_page_witness :
  let entries := [ mkDocEntry "builtin" "f()" "f" "Misc" [] [] ] in
  sidebar_html (group_by_category entries) = []
  /\ content_html (group_by_category entries) = [].
Proof.
  intros entries.
  assert (H := @undeclared_only_page entries).
  split; [apply H | apply H];
    first [ discriminate
          | intros e [<-|[]]; vm_compute; reflexivity ].
Defined.

Lemma flat_map_length_gap {A B} (f : A -> list B) (l : list A) :
  (forall x, length (f x) = 0 \/ 2 <= length (f x)) ->
  length (flat_map f l) = 0 \/ 2 <= length (flat_map f l).
Proof.
  intros H. induction l as [|x l IH]; [left; reflexivity|].
  cbn [flat_map]. rewrite length_app. specialize (H x). lia.
Qed.

Lemma content_walk_length (groups : odict (list DocEntry)) :
  length (content_walk groups) <> 1.
Proof.
  assert (H : length (content_walk groups) = 0 \/ 2 <= length (content_walk groups)).
  { apply flat_map_length_gap. intros section. unfold content_section.
    destruct (negb (truthy (active_cats groups (snd section)))); [left; reflexivity|].
    apply flat_map_length_gap. intros cat. right. unfold category_block.
    cbv zeta. rewrite length_app. cbn [length]. lia. }
  lia.
Qed.

Lemma sidebar_walk_length (groups : odict (list DocEntry)) :
  length (sidebar_walk groups) <> 1.
Proof.
  assert (H : length (sidebar_walk groups) = 0 \/ 2 <= length (sidebar_walk groups)).
  { apply flat_map_length_gap. intros section. unfold sidebar_section. cbv zeta.
    destruct (negb (truthy (active_cats groups (snd section)))); [left; reflexivity|].
    right. rewrite length_app. cbn [length]. lia. }
  lia.
Qed.

(** X7: the placeholder and the sidebar message are on the page exactly
    when no entry was found. *)
Theorem placeholder_iff_no_entries (entries : list DocEntry) :
  (content_html (group_by_category entries) = [Lit empty_state] <-> entries = [])
  /\ (sidebar_html (group_by_category entries) = [Lit sidebar_empty] <-> entries = []).
Proof.
  unfold content_html, sidebar_html. split; split.
  - destruct (group_by_category entries) as [|kv g] eqn:E.
    + intros _. apply grouped_empty, E.
    + cbn [truthy negb]. intros H. exfalso.
      apply (content_walk_length (kv :: g)). rewrite H. reflexivity.
  - intros ->. reflexivity.
  - destruct (group_by_category entries) as [|kv g] eqn:E.
    + intros _. apply grouped_empty, E.
    + cbn [truthy negb]. intros H. exfalso.
      apply (sidebar_walk_length (kv :: g)). rewrite H. reflexivity.
  - intros ->. reflexivity.
Qed.

(** ** Substrings *)

Lemma startswith_prefix (p s : str) :
  startswith p s = true <-> exists b, s = p ++ b.
Proof.
  revert s. induction p as [|a p IH]; intros s.
  - split; [intros _; exists s; reflexivity | reflexivity].
  - destruct s as [|c s]; cbn [startswith].
    + split; [discriminate | intros [b H]; discriminate].
    + rewrite andb_true_iff, IH. split.
      * intros [E [b ->]]. apply Ascii.eqb_eq in E. subst. exists b. reflexivity.
      * intros [b H]. injection H as -> ->. split; [apply Ascii.eqb_refl|].
        exists b. reflexivity.
Qed.

Lemma contains_infix (sub s : str) :
  contains sub s = true <-> exists a b, s = a ++ sub ++ b.
Proof.
  induction s as [|c s IH]; cbn [contains]; rewrite orb_true_iff, startswith_prefix.
  - split.
    + intros [[b H]|H]; [exists [], b; exact H | discriminate].
    + intros [[|x a] [b H]]; [left; exists b; exact H | discriminate].
  - rewrite IH. split.
    + intros [[b H]|[a [b H]]]; [exists [], b; exact H|].
      exists (c :: a), b. rewrite H. reflexivity.
    + intros [[|x a] [b H]]; [left; exists b; exact H|].
      right. injection H as _ H. exists a, b. exact H.
Qed.

Lemma contains_trans (sub mid s : str) :
  contains sub mid = true -> contains mid s = true -> contains sub s = true.
Proof.
  rewrite !contains_infix. intros [a [b ->]] [a' [b' ->]].
  exists (a' ++ a), (b ++ b'). rewrite <- !app_assoc. reflexivity.
Qed.

Lemma strip_infix (p : ascii -> bool) (s : str) :
  exists a b, s = a ++ strip_by p s ++ b.
Proof.
  unfold strip_by, lstrip_by, rstrip_by.
  destruct (dropwhile_suffix p (rev s)) as [b Hb].
  destruct (dropwhile_suffix p (rev (dropwhile p (rev s)))) as [a Ha].
  exists a, (rev b). rewrite app_assoc, <- Ha, <- rev_app_distr, <- Hb.
  symmetry. apply rev_involutive.
Qed.

Lemma contains_strip_outer (sub s : str) :
  contains sub (strip s) = true -> contains sub s = true.
Proof.
  intros H. apply (@contains_trans sub (strip s) s H). apply contains_infix.
  apply strip_infix.
Qed.

Lemma dropwhile_keeps (p : ascii -> bool) (x : ascii) (sub a b : str) :
  p x = false ->
  exists a', dropwhile p (a ++ (x :: sub) ++ b) = a' ++ (x :: sub) ++ b.
Proof.
  intros Hx. induction a as [|c a [a' IH]].
  - exists []. cbn [app dropwhile]. rewrite Hx. reflexivity.
  - cbn [app dropwhile]. destruct (p c); [exists a'; exact IH|].
    exists (c :: a). reflexivity.
Qed.

Lemma contains_strip_inner (sub s : str) (x y : ascii) :
  first_char sub = Some x -> is_space x = false ->
  last_char sub = Some y -> is_space y = false ->
  contains sub s = true -> contains sub (strip s) = true.
Proof.
  intros Hf Hx Hl Hy. rewrite !contains_infix. intros [a [b ->]].
  destruct sub as [|x0 sub0]; [discriminate|].
  cbn in Hf. injection Hf as ->.
  unfold last_char in Hl.
  destruct (rev (x :: sub0)) as [|y0 r0] eqn:Er; [discriminate|].
  cbn in Hl. injection Hl as ->.
  assert (Hrev : rev (y :: r0) = x :: sub0)
    by (rewrite <- Er; apply rev_involutive).
  unfold strip, strip_by, lstrip_by, rstrip_by.
  rewrite !rev_app_distr, Er, <- app_assoc.
  destruct (@dropwhile_keeps is_space y r0 (rev b) (rev a) Hy) as [b' Hb].
  rewrite Hb, !rev_app_distr, Hrev, rev_involutive, <- app_assoc.
  destruct (@dropwhile_keeps is_space x sub0 a (rev b') Hx) as [a' Ha].
  rewrite Ha. exists a', (rev b'). reflexivity.
Qed.

(** ** What the parser guarantees of an entry *)

Lemma strip_strip (s : str) : strip (strip s) = strip s.
Proof.
  apply strip_by_fixed; intros c H.
  - exact (strip_by_first is_space s H).
  - exact (strip_by_last is_space s H).
Qed.

Lemma find_char_before (c : ascii) (s : str) (i : nat) :
  find [c] s = Some i -> ~ In c (firstn i s).
Proof.
  revert i. induction s as [|x s IH]; intros i; cbn [find startswith].
  - discriminate.
  - rewrite andb_true_r. destruct (Ascii.eqb_spec c x) as [->|Hx].
    + intros H. injection H as <-. intros [].
    + destruct (find [c] s) as [j|]; [|discriminate].
      intros H. injection H as <-. cbn [firstn]. intros [E|E]; [congruence|].
      exact (IH j eq_refl E).
Qed.

Lemma find_char_none (c : ascii) (s : str) : find [c] s = None -> ~ In c s.
Proof.
  induction s as [|x s IH]; cbn [find startswith]; [intros _ []|].
  rewrite andb_true_r. destruct (Ascii.eqb_spec c x) as [->|Hx]; [discriminate|].
  destruct (find [c] s) as [j|]; [discriminate|].
  intros _ [E|E]; [congruence | exact (IH eq_refl E)].
Qed.

Lemma strip_without (c : ascii) (s : str) : ~ In c s -> ~ In c (strip s).
Proof.
  intros H Hin. destruct (strip_infix is_space s) as [a [b E]].
  apply H. rewrite E. apply in_or_app. right. apply in_or_app. left. exact Hin.
Qed.

Lemma tag_after_marker (tag rest : str) :
  contains ("@"%char :: tag) ("///" ++ rest) = contains ("@"%char :: tag) rest.
Proof. reflexivity. Qed.

Lemma block_start_tag (line : str) :
  is_block_start line = true ->
  contains "@builtin" (strip (skipn 3 line)) = true
  \/ contains "@method" (strip (skipn 3 line)) = true.
Proof.
  unfold is_block_start. rewrite andb_true_iff, orb_true_iff.
  intros [Hm Ht]. apply startswith_prefix in Hm. destruct Hm as [rest ->].
  change (skipn 3 ("///" ++ rest)) with rest.
  change (list_ascii_of_string "@builtin")
    with ("@"%char :: list_ascii_of_string "builtin") in *.
  change (list_ascii_of_string "@method")
    with ("@"%char :: list_ascii_of_string "method") in *.
  rewrite !tag_after_marker in Ht.
  destruct Ht as [Ht|Ht]; [left|right];
    (eapply contains_strip_inner; [reflexivity | reflexivity | reflexivity
                                  | reflexivity | exact Ht]).
Qed.

Lemma start_entry_well_formed (line : str) :
  is_block_start line = true -> well_formed_entry (start_entry line).
Proof.
  intros H. apply block_start_tag in H.
  unfold start_entry, well_formed_entry. cbv zeta.
  set (content := strip (skipn 3 line)) in *.
  assert (Hn : forall sig,
             let nm := match find "(" sig with
                       | Some paren_idx => strip (firstn paren_idx sig)
                       | None => strip sig
                       end in
             strip nm = nm /\ ~ In "("%char nm).
  { intros sig. cbv zeta.
    change (list_ascii_of_string "(") with ["("%char].
    destruct (find ["("%char] sig) as [i|] eqn:E.
    - split; [apply strip_strip|]. apply strip_without.
      exact (find_char_before _ _ E).
    - split; [apply strip_strip|]. apply strip_without.
      exact (find_char_none _ _ E). }
  destruct (contains "@builtin" content) eqn:Eb.
  - cbn [fst snd kind signature name].
    split; [left; reflexivity|]. split; [apply strip_strip|]. apply Hn.
  - destruct (contains "@method" content) eqn:Em.
    + cbn [fst snd kind signature name].
      split; [right; reflexivity|]. split; [apply strip_strip|]. apply Hn.
    + destruct H; discriminate.
Qed.

Lemma block_line_header (c : str) (e : DocEntry) (d : list str) :
  well_formed_entry e -> well_formed_entry (fst (block_line c e d)).
Proof.
  unfold block_line.
  destruct (startswith "@category" c); [exact (fun H => H)|].
  destruct (startswith "@example" c); [exact (fun H => H)|].
  destruct (truthy c); exact (fun H => H).
Qed.

Lemma finish_entry_header (e : DocEntry) (d : list str) :
  well_formed_entry e -> well_formed_entry (finish_entry e d).
Proof. exact (fun H => H). Qed.

Lemma parsed_well_formed (lines : list str) :
  Forall well_formed_entry (parse_lines lines)
  /\ forall e d, well_formed_entry e ->
                 Forall well_formed_entry (block_from e d lines).
Proof.
  induction lines as [|l lines [IHp IHb]].
  - split; [constructor|]. intros e d H.
    constructor; [apply finish_entry_header, H | constructor].
  - assert (Hp : Forall well_formed_entry (parse_lines (l :: lines))).
    { rewrite parse_lines_cons. destruct (is_block_start (strip l)) eqn:E.
      - apply IHb, start_entry_well_formed, E.
      - exact IHp. }
    split; [exact Hp|]. intros e d H. rewrite block_from_cons.
    destruct (negb (startswith "///" (strip l))).
    + constructor; [apply finish_entry_header, H | exact Hp].
    + apply IHb, block_line_header, H.
Qed.

(** X8: every entry the parser returns has kind "builtin" or "method", a
    signature and a name without white space at either end, and a name
    without an opening parenthesis. *)
Theorem parse_doc_blocks_well_formed (source_text : str) :
  Forall well_formed_entry (parse_doc_blocks source_text).
Proof. apply parsed_well_formed. Qed.

(** ** A block, line by line *)

Lemma rev_head_snoc {A} (l : list A) (c : A) :
  rev (l ++ [c]) = c :: rev l.
Proof. rewrite rev_app_distr. reflexivity. Qed.

Lemma last_category_cons (default c : str) (payloads : list str) :
  last_category default (c :: payloads)
  = last_category (if is_category_line c
                   then strip (replace "@category" "" c) else default) payloads.
Proof.
  unfold last_category. cbn [filter].
  destruct (is_category_line c); [|reflexivity].
  cbn [rev]. destruct (rev (filter is_category_line payloads)); reflexivity.
Qed.

Lemma block_from_marked_lines (ls : list str) (e : DocEntry) (d : list str) :
  Forall marked_line ls ->
  block_from e d ls
  = [ mkDocEntry (kind e) (signature e) (name e)
        (last_category (category e) (map payload ls))
        (join " " (d ++ text_of_lines (map payload ls)))
        (examples e ++ examples_of (map payload ls)) ].
Proof.
  intros H. revert e d. induction H as [|l ls Hl Hls IH]; intros e d.
  - cbn [block_from map]. unfold finish_entry, set_description, last_category,
      text_of_lines, examples_of. cbn [filter rev map].
    rewrite !app_nil_r. reflexivity.
  - rewrite (@block_from_marked e d l ls Hl), IH. cbn [map].
    fold (payload l). rewrite last_category_cons.
    unfold block_line, text_of_lines, examples_of, is_category_line,
      is_example_line, is_text_line. cbn [filter].
    destruct (startswith "@category" (payload l)); cbn [negb andb fst snd].
    + reflexivity.
    + destruct (startswith "@example" (payload l)); cbn [negb andb fst snd map].
      * unfold add_example. cbn [kind signature name category examples].
        rewrite <- app_assoc. reflexivity.
      * destruct (truthy (payload l)); cbn [fst snd];
          rewrite <- ?app_assoc; reflexivity.
Qed.

(** X9: a tag line followed by lines that all carry the marker gives
    exactly one entry, whatever tags those lines hold: its category is that
    of the last category line (none gives the empty category), its examples
    are those of the example lines in order, and its description joins the
    other non-empty lines with single spaces. *)
Theorem parse_contiguous_block (l : str) (ls : list str) :
  is_block_start (strip l) = true -> Forall marked_line ls ->
  parse_lines (l :: ls)
  = [ mkDocEntry (kind (start_entry (strip l)))
        (signature (start_entry (strip l))) (name (start_entry (strip l)))
        (last_category [] (map payload ls))
        (join " " (text_of_lines (map payload ls)))
        (examples_of (map payload ls)) ].
Proof.
  intros Hs Hm. rewrite (@parse_lines_start l ls Hs).
  rewrite (@block_from_marked_lines ls _ _ Hm). reflexivity.
Qed.

(** X9, at an input: a second tag line inside the block is read as a line
    of the description and opens no entry. *)
Lemma parse_contiguous_block_witness :
  parse_lines [ list_ascii_of_string "/// @builtin f()";
                list_ascii_of_string "/// @category A";
                list_ascii_of_string "/// @builtin g()";
                list_ascii_of_string "/// @category B" ]
  = [ mkDocEntry "builtin" "f()" "f" "B" "@builtin g()" [] ].
Proof.
  etransitivity.
  - apply parse_contiguous_block; [vm_compute; reflexivity | repeat constructor].
  - vm_compute. reflexivity.
Defined.

(** ** Blocks apart *)

Lemma parse_lines_split (a : list str) (u : str) (b : list str) :
  startswith "///" (strip u) = false ->
  parse_lines (a ++ u :: b) = parse_lines a ++ parse_lines b
  /\ forall e d, block_from e d (a ++ u :: b) = block_from e d a ++ parse_lines b.
Proof.
  intros Hu.
  assert (Hskip : parse_lines (u :: b) = parse_lines b).
  { apply parse_lines_other. unfold is_block_start. rewrite Hu. reflexivity. }
  induction a as [|l a [IHp IHb]].
  - split; [exact Hskip|]. intros e d. cbn [app].
    rewrite block_from_cons, Hu, Hskip. reflexivity.
  - assert (Hp : parse_lines ((l :: a) ++ u :: b)
                 = parse_lines (l :: a) ++ parse_lines b).
    { rewrite <- app_comm_cons, !parse_lines_cons.
      destruct (is_block_start (strip l)); [apply IHb | exact IHp]. }
    split; [exact Hp|]. intros e d.
    rewrite <- app_comm_cons, !block_from_cons.
    destruct (negb (startswith "///" (strip l))).
    + rewrite app_comm_cons, Hp. reflexivity.
    + apply IHb.
Qed.

Lemma split_app (sep : ascii) (t1 t2 : str) :
  split sep (t1 ++ sep :: t2) = split sep t1 ++ split sep t2.
Proof.
  induction t1 as [|c t1 IH]; cbn [app split].
  - rewrite Ascii.eqb_refl. reflexivity.
  - destruct (Ascii.eqb c sep); rewrite IH; [reflexivity|].
    destruct (split sep t1) as [|w ws] eqn:E; [|reflexivity].
    exfalso. exact (@split_nonempty sep t1 E).
Qed.

(** X10: two texts joined across a line that does not carry the marker are
    parsed apart: the entries of the whole are those of the first text
    followed by those of the second. *)
Theorem parse_doc_blocks_apart (t1 u t2 : str) :
  startswith "///" (strip u) = false -> ~ In "010"%char u ->
  parse_doc_blocks (t1 ++ nl ++ u ++ nl ++ t2)
  = parse_doc_blocks t1 ++ parse_doc_blocks t2.
Proof.
  intros Hu Hn. unfold parse_doc_blocks, nl.
  change (parse_lines (split "010" (t1 ++ "010"%char :: (u ++ "010"%char :: t2)))
          = parse_lines (split "010" t1) ++ parse_lines (split "010" t2)).
  rewrite !split_app, (@split_line "010" u Hn).
  apply parse_lines_split, Hu.
Qed.

(** X10, at an input: two blocks with a line of code between them. *)
Lemma parse_doc_blocks_apart_witness :
  parse_doc_blocks ("/// @builtin f()" ++ nl ++ "f_impl();" ++ nl ++ "/// @method S.g()")
  = parse_doc_blocks "/// @builtin f()" ++ parse_doc_blocks "/// @method S.g()".
Proof.
  apply (@parse_doc_blocks_apart "/// @builtin f()" "f_impl();" "/// @method S.g()").
  - vm_compute. reflexivity.
  - vm_compute. intros H. repeat (destruct H as [H|H]; [discriminate|]). exact H.
Defined.

(** ** Text without tags *)

Lemma split_lines_infix (sep : ascii) (s l : str) :
  In l (split sep s) -> exists a b, s = a ++ l ++ b.
Proof.
  revert l. induction s as [|c s IH]; intros l; cbn [split].
  - intros [<-|[]]. exists [], []. reflexivity.
  - destruct (Ascii.eqb c sep).
    + intros [<-|H]; [exists [], (c :: s); reflexivity|].
      destruct (IH l H) as [a [b ->]]. exists (c :: a), b. reflexivity.
    + destruct (split sep s) as [|w ws] eqn:E;
        [exfalso; exact (@split_nonempty sep s E)|].
      intros [<-|H].
      * assert (Hw : exists b, s = w ++ b).
        { clear IH. revert w ws E. induction s as [|x s IHs]; intros w ws E.
          - cbn in E. injection E as <- _. exists []. reflexivity.
          - cbn [split] in E. destruct (Ascii.eqb x sep).
            + injection E as <- _. exists (x :: s). reflexivity.
            + destruct (split sep s) as [|w' ws'] eqn:E';
                [exfalso; exact (@split_nonempty sep s E')|].
              injection E as <- _.
              destruct (IHs w' ws' eq_refl) as [b ->]. exists b. reflexivity. }
        destruct Hw as [b ->]. exists [], b. reflexivity.
      * destruct (IH l (or_intror H)) as [a [b ->]]. exists (c :: a), b.
        reflexivity.
Qed.

Lemma untagged_line (sub text l : str) :
  contains sub text = false -> In l (split "010" text) ->
  contains sub (strip l) = false.
Proof.
  intros Ht Hl. destruct (contains sub (strip l)) eqn:E; [|reflexivity].
  apply contains_strip_outer in E.
  assert (Hc : contains l text = true)
    by (apply contains_infix, (@split_lines_infix _ _ _ Hl)).
  rewrite (@contains_trans _ _ _ E Hc) in Ht. discriminate.
Qed.

Lemma parse_lines_none (lines : list str) :
  Forall (fun l => is_block_start (strip l) = false) lines -> parse_lines lines = [].
Proof.
  induction 1 as [|l lines Hl H IH]; [reflexivity|].
  rewrite (@parse_lines_other l lines Hl). exact IH.
Qed.

(** X11: a text that holds neither tag has no entries, and so has a text
    that does not hold the marker. *)
Theorem parse_doc_blocks_untagged (source_text : str) :
  (contains "@builtin" source_text = false /\ contains "@method" source_text = false)
  \/ contains "///" source_text = false ->
  parse_doc_blocks source_text = [].
Proof.
  intros H. apply parse_lines_none, Forall_forall. intros l Hl.
  unfold is_block_start. destruct H as [[Hb Hm]|Hk].
  - rewrite (@untagged_line _ _ _ Hb Hl), (@untagged_line _ _ _ Hm Hl).
    apply andb_false_r.
  - destruct (startswith "///" (strip l)) eqn:E; [|reflexivity].
    assert (Hc : contains "///" (strip l) = true).
    { apply contains_infix. apply startswith_prefix in E. destruct E as [b E].
      exists [], b. exact E. }
    rewrite (@untagged_line _ _ _ Hk Hl) in Hc. discriminate.
Qed.

(** X11, at inputs: the empty text, and a source file without doc comments. *)
Lemma parse_doc_blocks_untagged_witness :
  parse_doc_blocks [] = []
  /\ parse_doc_blocks ("int main(void) {" ++ nl ++ "  return 0; // done" ++ nl ++ "}") = [].
Proof.
  split; apply parse_doc_blocks_untagged; right; vm_compute; reflexivity.
Defined.

(** ** Files the scanner skips *)

Lemma insert_path_first (x : node) (m : directory) :
  (forall h, In h m -> name_le x h) -> insert_path x m = x :: m.
Proof.
  destruct m as [|h m]; [reflexivity|]. intros H. cbn [insert_path].
  rewrite (H h (or_introl eq_refl)). reflexivity.
Qed.

Lemma filter_insert_path (p : node -> bool) (x : node) (l : directory) :
  StronglySorted name_le l ->
  filter p (insert_path x l)
  = if p x then insert_path x (filter p l) else filter p l.
Proof.
  induction 1 as [|g l Hl IH Hg].
  - cbn [insert_path filter]. destruct (p x); reflexivity.
  - cbn [insert_path]. destruct (str_ltb (node_name g) (node_name x)) eqn:E.
    + cbn [filter]. rewrite IH. destruct (p x), (p g); try reflexivity.
      cbn [insert_path]. rewrite E. reflexivity.
    + cbn [filter]. destruct (p x); [|reflexivity].
      symmetry. apply insert_path_first. intros h Hh.
      assert (Hin : In h (g :: l)).
      { destruct (p g).
        - destruct Hh as [<-|Hh]; [left; reflexivity|].
          right. apply filter_In in Hh. tauto.
        - right. apply filter_In in Hh. tauto. }
      destruct Hin as [<-|Hin]; [exact E|].
      apply (@name_le_trans x g h); [exact E|].
      rewrite Forall_forall in Hg. exact (Hg h Hin).
Qed.

Lemma filter_sorted (p : node -> bool) (d : directory) :
  filter p (sorted d) = sorted (filter p d).
Proof.
  induction d as [|x d IH]; [reflexivity|].
  cbn [sorted fold_right filter]. fold (sorted d).
  rewrite (filter_insert_path p x (sorted_Sorted d)), IH.
  destruct (p x); reflexivity.
Qed.

Lemma filter_both {A} (f g : A -> bool) (l : list A) :
  filter f (filter g l) = filter (fun x => g x && f x) l.
Proof.
  induction l as [|x l IH]; [reflexivity|].
  cbn [filter]. destruct (g x); cbn [filter andb]; [destruct (f x)|];
    rewrite IH; reflexivity.
Qed.

Lemma flat_map_skip {A B} (h : A -> list B) (q : A -> bool) (l : list A) :
  (forall x, q x = false -> h x = []) ->
  flat_map h (filter q l) = flat_map h l.
Proof.
  intros H. induction l as [|x l IH]; [reflexivity|].
  cbn [filter flat_map]. destruct (q x) eqn:E.
  - cbn [flat_map]. rewrite IH. reflexivity.
  - rewrite IH, (H x E). reflexivity.
Qed.

(** X12: the scanner's result is that of the readable [.c] files alone:
    files that cannot be read, sub-directories (also ones named [*.c]) and
    files of other names change nothing, and a directory without a readable
    [.c] file gives no entries. *)
Theorem scan_readable_sources (d : directory) :
  scan_source_files (Some d) = scan_source_files (Some (filter readable_source d))
  /\ (filter readable_source d = [] -> scan_source_files (Some d) = []).
Proof.
  assert (H : scan_source_files (Some d)
              = scan_source_files (Some (filter readable_source d))).
  { rewrite !scan_flat_map.
    set (q := fun f : node => match f with
                              | File _ (Some _) => true
                              | File _ None => false
                              | Folder _ _ => false
                              end).
    rewrite <- (flat_map_skip file_entries q (sorted (glob_c d)))
      by (intros [n [t|]|n ch]; cbn; congruence).
    rewrite filter_sorted. unfold glob_c. rewrite !filter_both.
    f_equal. f_equal. apply filter_ext. intros f. unfold readable_source.
    fold (q f). destruct (endswith ".c" (node_name f)), (q f); reflexivity. }
  split; [exact H|]. intros E. rewrite H, E. reflexivity.
Qed.

(** ** Escaping *)

Lemma escape_app (a b : str) : escape (a ++ b) = escape a ++ escape b.
Proof. apply flat_map_app. Qed.

Lemma escape_length (s : str) : length s <= length (escape s).
Proof.
  induction s as [|c s IH]; [reflexivity|].
  rewrite escape_cons, length_app. cbn [length].
  pose proof (escape_char_nonempty c) as H.
  destruct (escape_char c); [congruence|]. cbn [length]. lia.
Qed.

Lemma escape_plain (s : str) :
  Forall (fun c => is_markup_char c = false) s -> escape s = s.
Proof.
  induction 1 as [|c s Hc Hs IH]; [reflexivity|].
  rewrite escape_cons, (escape_char_plain c Hc), IH. reflexivity.
Qed.

(** X13: escaping loses nothing and is done character by character: two
    texts have the same escaped text only if they are equal, the escaped
    text of a concatenation is the concatenation of the escaped texts, it is
    never shorter than the text, and a text without [&], [<], [>] and quotes
    is left as it is. *)
Theorem escape_faithful (a b : str) :
  (escape a = escape b <-> a = b)
  /\ escape (a ++ b) = escape a ++ escape b
  /\ length a <= length (escape a)
  /\ (Forall (fun c => is_markup_char c = false) a -> escape a = a).
Proof.
  split; [|split; [|split]].
  - split; [apply escape_injective | intros ->; reflexivity].
  - apply escape_app.
  - apply escape_length.
  - apply escape_plain.
Qed.

(** ** Examples *)

Lemma find_none_contains (sub s : str) :
  find sub s = None <-> contains sub s = false.
Proof.
  induction s as [|c s IH]; cbn [find contains].
  - destruct (startswith sub []); cbn; split; congruence.
  - destruct (startswith sub (c :: s)); cbn [orb]; [split; congruence|].
    rewrite <- IH. destruct (find sub s); cbn; split; congruence.
Qed.

(** X14: an example is rendered in full and in order: the values of its
    rendering, one after the other, are the escaped example; an example
    without [//] is one escaped value with no comment span. *)
Theorem format_example_complete (example : str) :
  values (format_example_html example) = escape example
  /\ (contains "//" example = false ->
      format_example_html example = [Val (escape example)]).
Proof.
  unfold format_example_html. split.
  - destruct (find "//" example) as [i|]; unfold values; cbn [flat_map app];
      rewrite ?app_nil_r; [|reflexivity].
    rewrite <- escape_app, firstn_skipn. reflexivity.
  - intros H. apply find_none_contains in H. rewrite H. reflexivity.
Qed.

(** ** Signatures *)

Lemma has_form_shape (sig : str) :
  has_form sig -> In "("%char sig /\ takewhile is_name_char sig <> [].
Proof.
  intros [nm [ws [params [rest [-> [Hne [Hnm _]]]]]]]. split.
  - apply in_or_app. right. apply in_or_app. right. left. reflexivity.
  - destruct nm as [|c nm]; [congruence|]. cbn [app takewhile].
    inversion Hnm as [|? ? Hc _]; subst. rewrite Hc. discriminate.
Qed.

(** X15: a signature without an opening parenthesis, or one that does not
    begin with a name character (the empty signature among them), is
    rendered as the single verbatim token. *)
Theorem signature_without_form (sig : str) :
  ~ In "("%char sig \/ takewhile is_name_char sig = [] ->
  format_signature_html sig = verbatim_token sig.
Proof.
  intros H. apply format_signature_unmatched, unmatched_iff.
  intros Hf. apply has_form_shape in Hf. tauto.
Qed.

(** X15, at inputs: a bare name, a signature after a blank, and the empty
    signature. *)
Lemma signature_without_form_witness :
  format_signature_html "String.len" = verbatim_token "String.len"
  /\ format_signature_html " f(x)" = verbatim_token " f(x)"
  /\ format_signature_html [] = verbatim_token [].
Proof.
  split; [|split]; apply signature_without_form.
  - left. vm_compute. intros H.
    repeat (destruct H as [H|H]; [discriminate|]). exact H.
  - right. reflexivity.
  - right. reflexivity.
Defined.

Lemma separators_app (a b : markup) :
  separators (a ++ b) = separators a + separators b.
Proof. apply count_app. Qed.

Lemma separators_format_param (param : str) : separators (format_param param) = 0.
Proof. unfold format_param. destruct (find ":" param); reflexivity. Qed.

Lemma separators_join (parts : list markup) :
  Forall (fun p => separators p = 0) parts ->
  separators (join_markup [Lit param_sep] parts) = length parts - 1.
Proof.
  induction 1 as [|p ps Hp Hps IH]; [reflexivity|].
  destruct ps as [|q ps]; [cbn [join_markup length]; rewrite Hp; reflexivity|].
  change (join_markup [Lit param_sep] (p :: q :: ps))
    with (p ++ [Lit param_sep] ++ join_markup [Lit param_sep] (q :: ps)).
  rewrite !separators_app, Hp, IH. cbn [length]. 
  change (separators [Lit param_sep]) with 1. lia.
Qed.

Lemma split_length (s : str) :
  length (split "," s) = S (count_occ ascii_dec s ","%char).
Proof.
  induction s as [|c s IH]; [reflexivity|].
  cbn [split count_occ].
  destruct (Ascii.eqb_spec c ","%char) as [->|Hc].
  - destruct (ascii_dec "," ","); [|congruence]. cbn [length]. rewrite IH.
    reflexivity.
  - destruct (ascii_dec c ","); [congruence|].
    destruct (split "," s) as [|w ws]; [discriminate|]. exact IH.
Qed.

(** X16: in a signature that matches, the parameters are split at every
    comma, nested or not: the rendering has as many separators as the
    parameter text has commas, and none when that text is blank. *)
Theorem signature_splits_at_commas (sig : str) (m : captures) :
  re_match signature_regex sig = Some m ->
  separators (format_signature_html sig)
  = if truthy (strip (group_or_empty m 2))
    then count_occ ascii_dec (group_or_empty m 2) ","%char
    else 0.
Proof.
  intros H. unfold format_signature_html. rewrite H. cbv zeta.
  rewrite !separators_app.
  destruct (truthy (strip (group_or_empty m 2))),
           (truthy (strip (group_or_empty m 4)));
    rewrite ?separators_join, ?length_map, ?split_length;
    try (apply Forall_map, Forall_forall; intros p _;
         apply separators_format_param);
    cbn; lia.
Qed.

(** X16, at an input: the comma inside a generic type splits it in two. *)
Lemma signature_splits_at_commas_witness :
  separators (format_signature_html "put(m: Map<K, V>, k: K)") = 2.
Proof.
  refine (eq_trans (@signature_splits_at_commas "put(m: Map<K, V>, k: K)" _ _) _).
  - vm_compute. reflexivity.
  - vm_compute. reflexivity.
Defined.

(** ** Anchors *)

Lemma dropwhile_length (p : ascii -> bool) (s : str) :
  length (dropwhile p s) <= length s.
Proof.
  induction s as [|c s IH]; [reflexivity|].
  cbn [dropwhile]. destruct (p c); cbn [length]; lia.
Qed.

Lemma strip_by_length (p : ascii -> bool) (s : str) :
  length (strip_by p s) <= length s.
Proof.
  unfold strip_by, lstrip_by, rstrip_by.
  pose proof (dropwhile_length p (rev (dropwhile p (rev s)))) as H1.
  pose proof (dropwhile_length p (rev s)) as H2.
  rewrite !length_rev in *. lia.
Qed.

Lemma anchor_char_case (c : ascii) :
  lower_char (if anchor_keep (lower_char c) then lower_char c else "-"%char)
  = lower_char (if anchor_keep c then c else "-"%char).
Proof. each_char c. Qed.

Lemma anchor_char_sub (c : ascii) :
  let c' := if anchor_keep c then c else "-"%char in
  (if anchor_keep c' then c' else "-"%char) = c'.
Proof. each_char c. Qed.

(** X17: an anchor is never longer than the name, and it does not tell
    apart names that differ in letter case or in which characters outside
    [a-zA-Z0-9_-] they have in a place. *)
Theorem make_anchor_insensitive (s : str) :
  length (make_anchor s) <= length s
  /\ make_anchor (lower s) = make_anchor s
  /\ make_anchor (sub_non_anchor s) = make_anchor s.
Proof.
  split; [|split].
  - unfold make_anchor, strip_chars, lower, sub_non_anchor.
    etransitivity; [apply strip_by_length|]. rewrite !length_map. reflexivity.
  - unfold make_anchor, lower, sub_non_anchor. f_equal.
    rewrite !map_map. apply map_ext, anchor_char_case.
  - unfold make_anchor, lower, sub_non_anchor. f_equal.
    rewrite !map_map. apply map_ext. intros c.
    f_equal. apply anchor_char_sub.
Qed.
